(** * Memory_Manager: a word-addressed pool with hole and partition lists

    Shallow embedding of [MemoryManager.cpp] / [MemoryManager.h]: the class
    [MemoryManager] becomes a record, each member function a function on that
    record, and the placement function [bestFit] a function over the flat
    [uint16_t] hole list produced by [getList]. *)

From Stdlib Require Import ZArith List Bool Lia String Ascii DecimalString.
Import ListNotations.

#[local] Open Scope Z_scope.

(** ** Machine integers *)

(** [unsigned], [uint16_t] and [uint8_t] values are kept as [Z]; the places
    where the source computes in one of these types wrap explicitly. *)
Definition u32 (x : Z) : Z := x mod 4294967296.
Definition u16 (x : Z) : Z := x mod 65536.
Definition u8 (x : Z) : Z := x mod 256.

(** ** Outcomes of a member function

    [std::vector::erase] on a position at or past [end()], [std::fill] over a
    range leaving the vector and [operator[]] past the size are undefined in
    C++; a loop whose [unsigned] counter wraps below its bound never exits.
    Both are kept apart from an ordinary return. *)
Inductive outcome (A : Type) : Type :=
| Returns (a : A)
| Undefined
| Diverges.
Arguments Returns {A} a.
Arguments Undefined {A}.
Arguments Diverges {A}.

Definition bind {A B : Type} (o : outcome A) (k : A -> outcome B) : outcome B :=
  match o with
  | Returns a => k a
  | Undefined => Undefined
  | Diverges => Diverges
  end.

Notation "x <- e ;; k" := (bind e (fun x => k))
  (at level 61, e at next level, right associativity).

(** ** Vector operations used by the manager *)

Module Vec.

Definition size {A : Type} (v : list A) : Z := Z.of_nat (List.length v).

(** [v[i]] *)
Definition at_ {A : Type} (v : list A) (i : Z) : outcome A :=
  if (0 <=? i) && (i <? size v)
  then match nth_error v (Z.to_nat i) with
       | Some a => Returns a
       | None => Undefined
       end
  else Undefined.

(** [v[i] = a] *)
Definition set {A : Type} (v : list A) (i : Z) (a : A) : outcome (list A) :=
  if (0 <=? i) && (i <? size v)
  then Returns (firstn (Z.to_nat i) v ++ a :: skipn (S (Z.to_nat i)) v)
  else Undefined.

(** [v.erase(v.begin() + i)] *)
Definition erase {A : Type} (v : list A) (i : Z) : outcome (list A) :=
  if (0 <=? i) && (i <? size v)
  then Returns (firstn (Z.to_nat i) v ++ skipn (S (Z.to_nat i)) v)
  else Undefined.

(** [std::fill(v.begin() + start, v.begin() + start + len, x)] *)
Definition fill (v : list Z) (start len x : Z) : outcome (list Z) :=
  if (0 <=? start) && (0 <=? len) && (start + len <=? size v)
  then Returns (firstn (Z.to_nat start) v
                  ++ repeat x (Z.to_nat len)
                  ++ skipn (Z.to_nat (start + len)) v)
  else Undefined.

(** [v.push_back(a)] *)
Definition push_back {A : Type} (v : list A) (a : A) : list A := v ++ [a].

End Vec.

(** ** Extents and their ordering *)

(** A hole or a partition: [pair<unsigned, unsigned>] (first = start word,
    second = length in words). *)
Definition extent : Type := (Z * Z)%type.

(** [operator<] of [std::pair]: lexicographic. *)
Definition pair_ltb (a b : extent) : bool :=
  (fst a <? fst b) || ((fst a =? fst b) && (snd a <? snd b)).

Fixpoint insert_sorted (x : extent) (l : list extent) : list extent :=
  match l with
  | [] => [x]
  | y :: l' => if pair_ltb y x then y :: insert_sorted x l' else x :: y :: l'
  end.

(** [std::sort(v.begin(), v.end())].  The order on pairs is total and two
    pairs that compare equal are the same pair, so the sorted vector is the
    same whatever the algorithm. *)
Definition sort (v : list extent) : list extent :=
  fold_right insert_sorted [] v.

(** ** The manager *)

(** The [allocator] member: [std::function<int(int, void* )>], called on the
    word count and the array returned by [getList]. *)
Definition allocator_fn : Type := Z -> list Z -> Z.

(** The private members of the class.  [memory] is a [vector<char>] whose
    bytes the manager never reads or writes; it is kept by its [size()], and a
    pointer into it by its byte offset from [&memory[0]]. *)
Record MemoryManager : Type := mkMemoryManager {
  memory : Z;
  holes : list extent;
  partitions : list extent;
  bitmap : list Z;
  wordSize : Z;
  memSize : Z;
  allocator : allocator_fn
}.

(** A [void*] handed out by or passed to the manager: [Some off] is
    [&memory[0] + off]; [None] is [nullptr]. *)
Definition pointer : Type := option Z.

Definition ptr_eqb (p q : pointer) : bool :=
  match p, q with
  | Some a, Some b => a =? b
  | None, None => true
  | _, _ => false
  end.

(** The constructor sets [wordSize] and [allocator] and default-constructs the
    vectors; it leaves [memSize] unset, so its content is an argument here. *)
Definition construct (wordSize : Z) (allocator : allocator_fn) (memSize0 : Z)
  : MemoryManager :=
  mkMemoryManager 0 [] [] [] wordSize memSize0 allocator.

Definition shutdown (m : MemoryManager) : MemoryManager :=
  mkMemoryManager 0 [] [] [] (wordSize m) (memSize m) (allocator m).

Definition initialize (sizeInWords : Z) (m : MemoryManager) : MemoryManager :=
  let m := shutdown m in
  let memSize' := if sizeInWords >? 65535 then 65535 else sizeInWords in
  let memory' := memSize' * wordSize m in
  let holes' := Vec.push_back (holes m) (0, memSize') in
  let bitmapSize :=
    if memSize' mod 8 =? 0 then memSize' else memSize' + 8 - memSize' mod 8 in
  mkMemoryManager memory' holes' (partitions m)
    (repeat 0 (Z.to_nat bitmapSize)) (wordSize m) memSize' (allocator m).

Definition setAllocator (a : allocator_fn) (m : MemoryManager) : MemoryManager :=
  mkMemoryManager (memory m) (holes m) (partitions m) (bitmap m)
    (wordSize m) (memSize m) a.

Definition getWordSize (m : MemoryManager) : Z := wordSize m.

Definition getMemoryLimit (m : MemoryManager) : Z := u32 (memory m).

(** [&memory[0]]: the pointer at offset 0; [operator[]] on an empty vector
    is undefined. *)
Definition getMemoryStart (m : MemoryManager) : outcome pointer :=
  if 0 <? memory m then Returns (Some 0) else Undefined.

(** *** getList *)

Fixpoint holes_array (hs : list extent) : list Z :=
  match hs with
  | [] => []
  | h :: hs' => u16 (fst h) :: u16 (snd h) :: holes_array hs'
  end.

(** The [uint16_t] array: the hole count, then (offset, length) per hole. *)
Definition hole_list (hs : list extent) : list Z :=
  u16 (Vec.size hs) :: holes_array hs.

Definition getList (m : MemoryManager) : option (list Z) :=
  if memory m =? 0 then None
  else Some (hole_list (holes m)).

(** *** getBitmap *)

(** One output byte: [byte |= bitmap[i+j] << j] for [j = 7 .. 0]. *)
Fixpoint pack_bits (bits : list Z) (j : Z) : Z :=
  match bits with
  | [] => 0
  | b :: bits' => Z.lor (Z.shiftl b j) (pack_bits bits' (j + 1))
  end.

Fixpoint pack_bytes (n : nat) (bm : list Z) : list Z :=
  match n with
  | O => []
  | S n' => match bm with
            | [] => []
            | _ => u8 (pack_bits (firstn 8 bm) 0) :: pack_bytes n' (skipn 8 bm)
            end
  end.

Definition getBitmap (m : MemoryManager) : option (list Z) :=
  if memory m =? 0 then None
  else
    let size := u16 (Vec.size (bitmap m) / 8) in
    Some (u8 (Z.shiftr size 0) :: u8 (Z.shiftr size 8)
            :: pack_bytes (List.length (bitmap m)) (bitmap m)).

(** ** Placement functions *)

(** [holes[i]] on the [uint16_t] array behind the [void*] argument.  An array
    built by [getList] is only read inside its bounds. *)
Definition rd (list : list Z) (i : Z) : Z := nth (Z.to_nat i) list 0.

(** The loop of [bestFit]: [for (int i = 1; i < holeListlength * 2; i += 2)],
    carrying [bestFitHole].  Every turn adds 2 to [i], so
    [holeListlength] turns reach the bound. *)
Fixpoint bestFit_loop (fuel : nat) (i holeListlength sizeInWords : Z)
    (list : list Z) (bestFitHole : Z * Z) : Z * Z :=
  match fuel with
  | O => bestFitHole
  | S fuel' =>
      if i <? holeListlength * 2 then
        let bestFitHole' :=
          if (rd list (i + 1) <? snd bestFitHole)
             && (rd list (i + 1) >=? sizeInWords)
          then (rd list i, rd list (i + 1))
          else bestFitHole in
        bestFit_loop fuel' (i + 2) holeListlength sizeInWords list bestFitHole'
      else bestFitHole
  end.

Definition bestFit (sizeInWords : Z) (list : list Z) : Z :=
  let holeListlength := rd list 0 in
  fst (bestFit_loop (Z.to_nat holeListlength) 1 holeListlength sizeInWords
         list (-1, 65536)).

(** The loop of [worstFit]: [for (uint16_t i = 1; i < holeListlength * 2;
    i += 2)], carrying [worstFitHole].  The counter is a [uint16_t], so
    [i += 2] wraps at 65536 while the bound is computed as an [int]: unless it
    wraps, [holeListlength] turns reach the bound, and once they are spent
    with the test still true the loop is one that never exits. *)
Fixpoint worstFit_loop (fuel : nat) (i holeListlength sizeInWords : Z)
    (list : list Z) (worstFitHole : Z * Z) : outcome (Z * Z) :=
  if i <? holeListlength * 2 then
    match fuel with
    | O => Diverges
    | S fuel' =>
        let worstFitHole' :=
          if (rd list (i + 1) >? snd worstFitHole)
             && (rd list (i + 1) >=? sizeInWords)
          then (rd list i, rd list (i + 1))
          else worstFitHole in
        worstFit_loop fuel' (u16 (i + 2)) holeListlength sizeInWords list
          worstFitHole'
    end
  else Returns worstFitHole.

Definition worstFit (sizeInWords : Z) (list : list Z) : outcome Z :=
  let holeListlength := rd list 0 in
  r <- worstFit_loop (Z.to_nat holeListlength) 1 holeListlength sizeInWords
         list (-1, -1) ;;
  Returns (fst r).

(** ** allocate *)

(** [ceil] of [<cmath>] on an integer argument: the operand
    [sizeInBytes/wordSize] is a quotient of two unsigned integers, so it is
    already integral when [ceil] sees it. *)
Definition ceil (q : Z) : Z := q.

(** The search [for (i = 0; i < holes.size(); i++) if (holes[i].first ==
    holeSelected) { index = i; break; }] with [index] starting at 0. *)
Fixpoint find_index (hs : list extent) (i : Z) (holeSelected : Z) : option Z :=
  match hs with
  | [] => None
  | h :: hs' => if fst h =? u32 holeSelected then Some i
                else find_index hs' (i + 1) holeSelected
  end.

Definition hole_index (hs : list extent) (holeSelected : Z) : Z :=
  match find_index hs 0 holeSelected with
  | Some i => i
  | None => 0
  end.

Definition allocate (sizeInBytes : Z) (m : MemoryManager)
  : outcome (pointer * MemoryManager) :=
  if (sizeInBytes >? memSize m * wordSize m) || (sizeInBytes <? 0)
     || (memory m =? 0)
  then Returns (None, m)
  else
    let words := u32 (ceil (sizeInBytes / wordSize m)) in
    match getList m with
    | None => Undefined
    | Some list =>
        let holeSelected := allocator m words list in
        if holeSelected =? -1 then Returns (None, m)
        else
          let index := hole_index (holes m) holeSelected in
          h <- Vec.at_ (holes m) index ;;
          holes' <- (if snd h =? words
                     then Vec.erase (holes m) index
                     else Vec.set (holes m) index
                            (u32 (holeSelected + words), u32 (snd h - words))) ;;
          let partitions' :=
            sort (Vec.push_back (partitions m) (u32 holeSelected, words)) in
          bitmap' <- Vec.fill (bitmap m) holeSelected words 1 ;;
          let off := u32 (holeSelected * wordSize m) in
          if off <? memory m
          then Returns (Some off,
                        mkMemoryManager (memory m) holes' partitions' bitmap'
                          (wordSize m) (memSize m) (allocator m))
          else Undefined
    end.

(** ** free *)

(** The scan [for (unsigned i = 0; i < memory.size(); i += wordSize)
    if (&memory[i] == address) wordOffset = i/wordSize;].  While the counter
    does not wrap it advances by [wordSize >= 1] each turn, so [memory.size()]
    turns are enough; when it wraps the bound is never reached. *)
Fixpoint find_offset (fuel : nat) (i : Z) (m : MemoryManager)
    (address : pointer) (wordOffset : Z) : outcome Z :=
  if i <? memory m then
    match fuel with
    | O => Diverges
    | S fuel' =>
        find_offset fuel' (u32 (i + wordSize m)) m address
          (if ptr_eqb (Some i) address then i / wordSize m else wordOffset)
    end
  else Returns wordOffset.

(** The partition scan: the first partition whose start is [wordOffset] is
    erased and its length kept; without one the length stays 0. *)
Fixpoint remove_partition (ps : list extent) (wordOffset : Z)
  : Z * list extent :=
  match ps with
  | [] => (0, [])
  | p :: ps' =>
      if fst p =? wordOffset then (snd p, ps')
      else let '(len, rest) := remove_partition ps' wordOffset in
           (len, p :: rest)
  end.

(** The coalescing loop over [holes], from index [i]: the result is
    [combine], [erase[0]] and [erase[1]]. *)
Fixpoint coalesce (hs : list extent) (i : Z) (wordOffset length : Z)
    (combine : Z * Z) (erase0 erase1 : Z) : (Z * Z) * Z * Z :=
  match hs with
  | [] => (combine, erase0, erase1)
  | h :: hs' =>
      let '(combine, erase0) :=
        if u32 (fst h + snd h) =? wordOffset
        then ((fst h, u32 (snd h + length)), i)
        else (combine, erase0) in
      if fst h =? u32 (fst combine + snd combine)
      then ((fst combine, snd combine + snd h), erase0, i)
      else coalesce hs' (i + 1) wordOffset length combine erase0 erase1
  end.

Definition free (address : pointer) (m : MemoryManager)
  : outcome MemoryManager :=
  wordOffset <- find_offset (Z.to_nat (memory m)) 0 m address 0 ;;
  let '(length, partitions') := remove_partition (partitions m) wordOffset in
  let '(combine, erase0, erase1) :=
    coalesce (holes m) 0 wordOffset length (wordOffset, length) (-1) (-1) in
  holes1 <- (if negb (erase0 =? -1) then Vec.erase (holes m) erase0
             else Returns (holes m)) ;;
  holes2 <- (if negb (erase1 =? -1) then Vec.erase holes1 erase1
             else Returns holes1) ;;
  let holes3 :=
    sort (Vec.push_back holes2 (u32 (fst combine), u32 (snd combine))) in
  bitmap' <- Vec.fill (bitmap m) wordOffset length 0 ;;
  Returns (mkMemoryManager (memory m) holes3 partitions' bitmap'
             (wordSize m) (memSize m) (allocator m)).

(** ** dumpMemoryMap *)

#[local] Open Scope string_scope.

(** [std::to_string] on an [unsigned]. *)
Definition to_string (n : Z) : string :=
  NilZero.string_of_uint (N.to_uint (Z.to_N n)).

(** The loop writing every hole but the last as ["[first, second] - "]
    and the last one as ["[first, second]"]; the result is the sequence of
    buffers handed to [write]. *)
Fixpoint dump_writes (hs : list extent) : list string :=
  match hs with
  | [] => []
  | [h] => ["[" ++ to_string (fst h) ++ ", " ++ to_string (snd h) ++ "]"]
  | h :: hs' =>
      ("[" ++ to_string (fst h) ++ ", " ++ to_string (snd h) ++ "] - ")
        :: dump_writes hs'
  end.

(** [fd] is what [open(filename, O_CREAT | O_RDWR, S_IRWXU)] returns.  The
    result pairs the returned [int] with the bytes written to the descriptor,
    in order. *)
Definition dumpMemoryMap (fd : Z) (m : MemoryManager) : Z * string :=
  if (memory m =? 0)%Z then ((-1)%Z, "")
  else if (fd =? -1)%Z then ((-1)%Z, "")
  else if (Vec.size (holes m) =? 0)%Z then (0%Z, "[0, 0]")
  else (0%Z, String.concat "" (dump_writes (holes m))).

#[local] Close Scope string_scope.

(** ** The loop of bestFit as a fold

    One turn of the loop of [bestFit] for a request of [w] words, seen on
    the hole it looks at: the hole replaces [bestFitHole] when it is shorter
    and long enough. *)
Definition better (w : Z) (b : Z * Z) (h : extent) : Z * Z :=
  if (snd h <? snd b) && (snd h >=? w) then h else b.

(** ** Observing a manager and running a sequence of calls *)

(** The three tracking structures of a manager. *)
Definition view (m : MemoryManager) : list extent * list extent * list Z :=
  (holes m, partitions m, bitmap m).

(** A call of the public interface.  [Free k] frees the pointer the [k]-th
    [Allocate] of the sequence returned (counting from 0), so a sequence only
    ever frees what [allocate] handed out. *)
Inductive call : Type :=
| Allocate (sizeInBytes : Z)
| Free (k : nat).

Fixpoint run (cs : list call) (returned : list pointer) (m : MemoryManager)
  : outcome (list pointer * MemoryManager) :=
  match cs with
  | [] => Returns (returned, m)
  | Allocate n :: cs' =>
      r <- allocate n m ;;
      run cs' (returned ++ [fst r]) (snd r)
  | Free k :: cs' =>
      m' <- free (nth k returned None) m ;;
      run cs' returned m'
  end.

(** A manager built with [bestFit], initialized to [wordCount] words, after
    the calls [cs]. *)
Definition session (wordSize wordCount : Z) (cs : list call)
  : outcome (list pointer * MemoryManager) :=
  run cs [] (initialize wordCount (construct wordSize bestFit 0)).

Definition observe (o : outcome (list pointer * MemoryManager))
  : outcome (list pointer * (list extent * list extent * list Z)) :=
  r <- o ;; Returns (fst r, view (snd r)).

(** The manager a session ends with, for the properties stated on a
    manager. *)
Definition final (o : outcome (list pointer * MemoryManager))
  : option MemoryManager :=
  match o with
  | Returns r => Some (snd r)
  | _ => None
  end.

(** Two managers used as examples: a 10-word pool of 4-byte words after one
    2-word allocation, and a 10-word pool of 1-byte words holding the
    partitions (2, 2) and (6, 2) between three holes. *)
Definition pool_one_partition : MemoryManager :=
  mkMemoryManager 40 [(2, 8)] [(0, 2)]
    [1; 1; 0; 0; 0; 0; 0; 0; 0; 0; 0; 0; 0; 0; 0; 0] 4 10 bestFit.

Definition pool_three_holes : MemoryManager :=
  mkMemoryManager 10 [(0, 2); (4, 2); (8, 2)] [(2, 2); (6, 2)]
    [0; 0; 1; 1; 0; 0; 1; 1; 0; 0; 0; 0; 0; 0; 0; 0] 1 10 bestFit.


(** ** What the specification asks

    The definitions of this part follow the specification's wording, not the
    source. *)

(** A hole qualifies for a request of [w] words when its length is at least
    [w]. *)
Definition qualifies (w : Z) (h : extent) : Prop := w <= snd h.

(** The list is in ascending-start order. *)
Definition ascending (hs : list extent) : Prop :=
  forall i j a b, (i <= j)%nat ->
    nth_error hs i = Some a -> nth_error hs j = Some b -> fst a <= fst b.

(** Starts never decrease along the list. *)
Inductive starts_sorted : list extent -> Prop :=
| starts_sorted_nil : starts_sorted []
| starts_sorted_cons (x : extent) (l : list extent) :
    (forall y, In y l -> fst x <= fst y) ->
    starts_sorted l -> starts_sorted (x :: l).

(** Starts strictly increase along the list. *)
Inductive increasing : list extent -> Prop :=
| increasing_nil : increasing []
| increasing_cons (x : extent) (l : list extent) :
    (forall y, In y l -> fst x < fst y) ->
    increasing l -> increasing (x :: l).

(** The holes lie in ascending order with at least one word between one
    hole and the next: sorted, disjoint and non-adjacent. *)
Inductive separated : list extent -> Prop :=
| separated_nil : separated []
| separated_cons (x : extent) (l : list extent) :
    (forall y, In y l -> fst x + snd x < fst y) ->
    separated l -> separated (x :: l).

(** A manager in which the data-model invariants the round trip relies on
    hold: a backing store of [memSize] words within the reach of the
    [unsigned] scan of [free], holes of at least one word inside the pool and
    separated, no partition starting where a hole starts, and a bitmap with a
    bit for every word. *)
Record clean (m : MemoryManager) : Prop := mkClean {
  clean_wordSize : 1 <= wordSize m;
  clean_memory : memory m = memSize m * wordSize m;
  clean_reach : memory m < 4294967296;
  clean_memSize : 0 <= memSize m <= 65535;
  clean_count : Vec.size (holes m) <= 65535;
  clean_holes : separated (holes m);
  clean_range :
    Forall (fun h => 0 <= fst h /\ 1 <= snd h /\ fst h + snd h <= memSize m)
      (holes m);
  clean_partitions :
    forall p h, In p (partitions m) -> In h (holes m) -> fst p <> fst h;
  clean_bitmap : memSize m <= Vec.size (bitmap m)
}.

(** The fields of every hole fit the 16-bit encoding, and so does the count. *)
Definition encodable (hs : list extent) : Prop :=
  Vec.size hs <= 65535 /\
  Forall (fun h => 0 <= fst h <= 65535 /\ 0 <= snd h <= 65535) hs.

(** The specification of the best-fit rule for a result [r]: the no-fit
    sentinel when nothing qualifies; otherwise the start of a qualifying hole
    of least length, the first such hole in list order, which in an
    ascending list is the one of lowest start. *)
Definition selects_best (w : Z) (hs : list extent) (r : Z) : Prop :=
  ((forall h, In h hs -> ~ qualifies w h) -> r = -1) /\
  ((exists h, In h hs /\ qualifies w h) ->
   exists k b,
     nth_error hs k = Some b /\ qualifies w b /\ r = fst b /\
     forall j h, nth_error hs j = Some h -> qualifies w h ->
       snd b <= snd h /\
       (snd h = snd b -> (k <= j)%nat /\ (ascending hs -> fst b <= fst h))).

(** Word [i] lies inside the extent [e]. *)
Definition covers (e : extent) (i : Z) : Prop := fst e <= i < fst e + snd e.

(** Non-adjacency of a hole set: no hole ends where another one starts. *)
Definition non_adjacent (hs : list extent) : Prop :=
  forall i j a b, i <> j ->
    nth_error hs i = Some a -> nth_error hs j = Some b ->
    fst a + snd a <> fst b.

(** Coverage: every word of [[0, wordCount)] lies in exactly one extent of
    the hole set and the partition set taken together. *)
Definition tiles (wordCount : Z) (hs ps : list extent) : Prop :=
  forall i, 0 <= i < wordCount ->
    exists k, (exists e, nth_error (hs ++ ps) k = Some e /\ covers e i) /\
      forall k' e', nth_error (hs ++ ps) k' = Some e' -> covers e' i -> k' = k.

(** Bitmap fidelity: bit [i] is 1 exactly when word [i] lies in a
    partition. *)
Definition bitmap_faithful (m : MemoryManager) : Prop :=
  forall i, 0 <= i < Vec.size (bitmap m) ->
    (rd (bitmap m) i = 1 <-> exists p, In p (partitions m) /\ covers p i).

(** The word count the specification asks [allocate] to use:
    [ceil(sizeInBytes / wordSize)]. *)
Definition words_needed (sizeInBytes wordSize : Z) : Z :=
  (sizeInBytes + wordSize - 1) / wordSize.

(** The text the specification gives for one hole and for a hole set. *)
Definition hole_text (h : extent) : string :=
  ("[" ++ to_string (fst h) ++ ", " ++ to_string (snd h) ++ "]")%string.

Definition map_text (hs : list extent) : string :=
  String.concat " - " (map hole_text hs).

(** One turn of the loop of [worstFit] for a request of [w] words, seen on
    the hole it looks at. *)
Definition larger (w : Z) (b : Z * Z) (h : extent) : Z * Z :=
  if (snd h >? snd b) && (snd h >=? w) then h else b.

(** The worst-fit rule for a result [r]: -1 when no hole is long enough;
    otherwise the start of a longest hole among those long enough, the first
    such hole in list order. *)
Definition selects_worst (w : Z) (hs : list extent) (r : Z) : Prop :=
  ((forall h, In h hs -> ~ qualifies w h) -> r = -1) /\
  ((exists h, In h hs /\ qualifies w h) ->
   exists k b,
     nth_error hs k = Some b /\ qualifies w b /\ r = fst b /\
     forall j h, nth_error hs j = Some h ->
       snd h <= snd b /\ (snd h = snd b -> (k <= j)%nat)).

(** The members neither [allocate] nor [free] touches, and the length of the
    bitmap. *)
Definition same_frame (m m' : MemoryManager) : Prop :=
  memory m' = memory m /\ wordSize m' = wordSize m /\
  memSize m' = memSize m /\ allocator m' = allocator m /\
  Vec.size (bitmap m') = Vec.size (bitmap m).

(** ** A well-formed manager *)

Definition coversb (e : extent) (i : Z) : bool :=
  (fst e <=? i) && (i <? fst e + snd e).

(** The number of extents of [es] that word [i] lies in. *)
Fixpoint cover_count (es : list extent) (i : Z) : Z :=
  match es with
  | [] => 0
  | e :: es' => (if coversb e i then 1 else 0) + cover_count es' i
  end.

(** The state the manager is meant to keep: a backing store of [memSize]
    words of at least one byte, within the reach of the [unsigned] scan of
    [free]; holes and partitions of at least one word inside the pool; holes
    in ascending order with a gap between any two; every word of the pool in
    exactly one hole or partition; and a bitmap with a flag per word, 1
    exactly on the words of partitions. *)
Record wf (m : MemoryManager) : Prop := mkWf {
  wf_wordSize : 1 <= wordSize m;
  wf_memory : memory m = memSize m * wordSize m;
  wf_reach : memory m < 4294967296;
  wf_memSize : 0 <= memSize m <= 65535;
  wf_holes : separated (holes m);
  wf_hole_range :
    Forall (fun h => 0 <= fst h /\ 1 <= snd h /\ fst h + snd h <= memSize m)
      (holes m);
  wf_partition_range :
    Forall (fun p => 0 <= fst p /\ 1 <= snd p /\ fst p + snd p <= memSize m)
      (partitions m);
  wf_tiling :
    forall i, 0 <= i < memSize m ->
      cover_count (holes m) i + cover_count (partitions m) i = 1;
  wf_bitmap_size : memSize m <= Vec.size (bitmap m);
  wf_bitmap :
    forall i, 0 <= i < Vec.size (bitmap m) ->
      rd (bitmap m) i = (if 0 <? cover_count (partitions m) i then 1 else 0)
}.




(** * Properties *)

(** ** bestFit *)

Section BestFit.

Variable w : Z.

Lemma holes_array_length (hs : list extent) :
  List.length (holes_array hs) = (2 * List.length hs)%nat.
Proof. induction hs as [|h hs IH]; simpl; [reflexivity | rewrite IH; lia]. Qed.

Lemma holes_array_app (xs ys : list extent) :
  holes_array (xs ++ ys) = holes_array xs ++ holes_array ys.
Proof. induction xs as [|x xs IH]; simpl; [reflexivity | now rewrite IH]. Qed.

Lemma rd_after (c : Z) (done rest : list extent) (d : nat) :
  rd (c :: holes_array (done ++ rest))
     (1 + 2 * Z.of_nat (List.length done) + Z.of_nat d)
  = nth d (holes_array rest) 0.
Proof.
  unfold rd.
  replace (Z.to_nat (1 + 2 * Z.of_nat (List.length done) + Z.of_nat d))
    with (S (List.length (holes_array done) + d)) by (rewrite holes_array_length; lia).
  simpl. rewrite holes_array_app. rewrite app_nth2 by lia.
  f_equal. lia.
Qed.

Lemma u16_small (x : Z) : 0 <= x <= 65535 -> u16 x = x.
Proof. intros H. unfold u16. apply Z.mod_small. lia. Qed.

(** The loop over the encoded list is a left fold of [better] over the
    holes still ahead.  [List.length rest] turns consume them, after which
    the loop test fails: fuel beyond that is never used. *)
Lemma bestFit_loop_fold (c : Z) (rest done : list extent) (b : Z * Z)
    (extra : nat) :
  Forall (fun h => 0 <= fst h <= 65535 /\ 0 <= snd h <= 65535) rest ->
  bestFit_loop (List.length rest + extra)
    (1 + 2 * Z.of_nat (List.length done))
    (Z.of_nat (List.length (done ++ rest))) w
    (c :: holes_array (done ++ rest)) b
  = fold_left (better w) rest b.
Proof.
  revert done b. induction rest as [|h rest IH]; intros done b Hr.
  - cbn [List.length Nat.add fold_left]. rewrite app_nil_r.
    destruct extra as [|extra]; cbn [bestFit_loop]; [reflexivity|].
    assert (Hge : (1 + 2 * Z.of_nat (List.length done)
                   <? Z.of_nat (List.length done) * 2) = false)
      by (apply Z.ltb_ge; lia).
    rewrite Hge. reflexivity.
  - inversion Hr as [|h' r' Hh Hrest]; subst.
    cbn [List.length Nat.add bestFit_loop fold_left].
    assert (Hlen : Z.of_nat (List.length (done ++ h :: rest))
                   = Z.of_nat (List.length done) + 1 + Z.of_nat (List.length rest)).
    { rewrite length_app. cbn [List.length]. lia. }
    assert (Hlt : (1 + 2 * Z.of_nat (List.length done)
                   <? Z.of_nat (List.length (done ++ h :: rest)) * 2) = true).
    { apply Z.ltb_lt. lia. }
    rewrite Hlt.
    pose proof (rd_after c done (h :: rest) 0) as R0.
    pose proof (rd_after c done (h :: rest) 1) as R1.
    cbn [holes_array nth] in R0, R1.
    change (Z.of_nat 0) with 0 in R0. rewrite Z.add_0_r in R0.
    change (Z.of_nat 1) with 1 in R1.
    rewrite R0, R1.
    rewrite !u16_small by tauto.
    assert (Hdone : 1 + 2 * Z.of_nat (List.length done) + 2
                    = 1 + 2 * Z.of_nat (List.length (done ++ [h]))).
    { rewrite length_app. cbn [List.length]. lia. }
    rewrite Hdone.
    replace (done ++ h :: rest) with ((done ++ [h]) ++ rest)
      by (rewrite <- app_assoc; reflexivity).
    rewrite IH by assumption.
    f_equal. unfold better. destruct h as [hs hl]. reflexivity.
Qed.

Lemma bestFit_fold (hs : list extent) :
  encodable hs ->
  bestFit w (hole_list hs) = fst (fold_left (better w) hs (-1, 65536)).
Proof.
  intros [Hc Hf]. unfold bestFit, hole_list.
  assert (E : rd (u16 (Vec.size hs) :: holes_array hs) 0 = Vec.size hs).
  { unfold rd. simpl. apply u16_small. unfold Vec.size in *. lia. }
  rewrite E. unfold Vec.size. rewrite Nat2Z.id.
  pose proof (bestFit_loop_fold (u16 (Z.of_nat (List.length hs))) hs []
                (-1, 65536) 0 Hf) as L.
  rewrite Nat.add_0_r in L. cbn [List.length app] in L.
  change (1 + 2 * Z.of_nat 0) with 1 in L.
  rewrite L. reflexivity.
Qed.

(** What the fold keeps: the running best, unless a hole ahead beats it,
    and then the first of the shortest qualifying holes ahead. *)
Lemma fold_better_spec (rest : list extent) (b : Z * Z) :
  (fold_left (better w) rest b = b /\
   forall h, In h rest -> w <= snd h -> snd b <= snd h)
  \/
  (exists k h,
      nth_error rest k = Some h /\ fold_left (better w) rest b = h /\
      w <= snd h /\ snd h < snd b /\
      forall j h', nth_error rest j = Some h' -> w <= snd h' ->
        snd h <= snd h' /\ (snd h' = snd h -> (k <= j)%nat)).
Proof.
  revert b. induction rest as [|x rest IH]; intros b.
  - left. split; [reflexivity | intros h []].
  - cbn [fold_left].
    assert (Hshift : forall k h,
               nth_error rest k = Some h -> w <= snd h -> snd h < snd b ->
               (w <= snd x -> snd h < snd x) ->
               (forall j h', nth_error rest j = Some h' -> w <= snd h' ->
                  snd h <= snd h' /\ (snd h' = snd h -> (k <= j)%nat)) ->
               forall j h', nth_error (x :: rest) j = Some h' -> w <= snd h' ->
                  snd h <= snd h' /\ (snd h' = snd h -> (S k <= j)%nat)).
    { intros k h Hk Hq Hlt Hx Hmin j h' Hj Hw.
      destruct j as [|j]; cbn [nth_error] in Hj.
      - inversion Hj; subst. specialize (Hx Hw). lia.
      - destruct (Hmin j h' Hj Hw) as [H1 H2]. split; [assumption|].
        intros Heq. specialize (H2 Heq). lia. }
    assert (Hb : better w b x
                 = if (snd x <? snd b) && (snd x >=? w) then x else b)
      by reflexivity.
    rewrite Hb. clear Hb.
    destruct (snd x <? snd b) eqn:Elt; cbn [andb];
      [destruct (snd x >=? w) eqn:Ege|].
    + apply Z.ltb_lt in Elt. apply Z.geb_le in Ege.
      right. destruct (IH x) as [[Hr Hall] | (k & h & Hk & Hr & Hq & Hlt & Hmin)].
      * exists 0%nat, x. split; [reflexivity|]. split; [assumption|].
        split; [assumption|]. split; [assumption|].
        intros j h' Hj Hw. split; [|lia].
        destruct j as [|j]; cbn [nth_error] in Hj.
        -- inversion Hj; subst. lia.
        -- apply Hall; [eapply nth_error_In; eassumption | assumption].
      * exists (S k), h. split; [assumption|]. split; [assumption|].
        split; [assumption|]. split; [lia|].
        apply Hshift; try assumption; lia.
    + apply Z.ltb_lt in Elt.
      assert (Hnq : snd x < w).
      { destruct (Z.geb_spec (snd x) w); [discriminate | lia]. }
      destruct (IH b) as [[Hr Hall] | (k & h & Hk & Hr & Hq & Hlt & Hmin)].
      * left. split; [assumption|].
        intros h [<- | Hin] Hw; [lia | now apply Hall].
      * right. exists (S k), h. split; [assumption|]. split; [assumption|].
        split; [assumption|]. split; [assumption|].
        apply Hshift; try assumption; lia.
    + apply Z.ltb_ge in Elt.
      destruct (IH b) as [[Hr Hall] | (k & h & Hk & Hr & Hq & Hlt & Hmin)].
      * left. split; [assumption|].
        intros h [<- | Hin] Hw; [lia | now apply Hall].
      * right. exists (S k), h. split; [assumption|]. split; [assumption|].
        split; [assumption|]. split; [assumption|].
        apply Hshift; try assumption; lia.
Qed.

End BestFit.

(** C7. Over any encodable hole list, [bestFit] returns the start of the
    shortest hole of length at least the request, the first such hole when
    several share that length (the lowest start in an ascending list), and
    -1 when no hole is long enough; over holes (0,10), (20,2), (30,6) a
    request of 5 words gives 30 and a request of 2 words gives 20. *)
Theorem bestFit_selects_smallest_fit (w : Z) (hs : list extent) :
  encodable hs ->
  selects_best w hs (bestFit w (hole_list hs)) /\
  bestFit 5 (hole_list [(0, 10); (20, 2); (30, 6)]) = 30 /\
  bestFit 2 (hole_list [(0, 10); (20, 2); (30, 6)]) = 20.
Proof.
  intros Henc. split; [|split; reflexivity].
  rewrite (bestFit_fold w hs Henc).
  destruct Henc as [_ Hf]. rewrite Forall_forall in Hf.
  destruct (fold_better_spec w hs (-1, 65536))
    as [[Hr Hall] | (k & b & Hk & Hr & Hq & Hlt & Hmin)]; rewrite Hr.
  - split.
    + reflexivity.
    + intros (h & Hin & Hw). exfalso.
      specialize (Hall h Hin Hw). specialize (Hf h Hin). cbn [snd] in Hall. lia.
  - split.
    + intros Hnone. exfalso. apply (Hnone b); [eapply nth_error_In; eassumption | exact Hq].
    + intros _. exists k, b. split; [assumption|]. split; [exact Hq|].
      split; [reflexivity|].
      intros j h Hj Hw. destruct (Hmin j h Hj Hw) as [H1 H2].
      split; [assumption|]. intros Heq. specialize (H2 Heq).
      split; [assumption|]. intros Hasc. exact (Hasc k j b h H2 Hk Hj).
Qed.

Lemma bestFit_selects_smallest_fit_witness :
  encodable [(0, 10); (20, 2); (30, 6)] /\
  selects_best 5 [(0, 10); (20, 2); (30, 6)]
    (bestFit 5 (hole_list [(0, 10); (20, 2); (30, 6)])).
Proof.
  assert (E : encodable [(0, 10); (20, 2); (30, 6)]).
  { split; [vm_compute; discriminate | repeat constructor; cbn; lia]. }
  split; [exact E|].
  exact (proj1 (bestFit_selects_smallest_fit 5 [(0, 10); (20, 2); (30, 6)] E)).
Defined.

(** ** dumpMemoryMap *)

Section Dump.

#[local] Open Scope string_scope.

Lemma append_assoc (a b c : string) : (a ++ b) ++ c = a ++ (b ++ c).
Proof. induction a as [|x a IH]; cbn; [reflexivity | now rewrite IH]. Qed.

Lemma dump_writes_nonempty (h : extent) (hs : list extent) :
  dump_writes (h :: hs) <> [].
Proof. destruct hs; cbn; discriminate. Qed.

Lemma concat_cons2 (sep x y : string) (ys : list string) :
  String.concat sep (x :: y :: ys) = x ++ sep ++ String.concat sep (y :: ys).
Proof. reflexivity. Qed.

Lemma dump_writes_cons2 (h h2 : extent) (hs : list extent) :
  dump_writes (h :: h2 :: hs) = (hole_text h ++ " - ") :: dump_writes (h2 :: hs).
Proof.
  cbn [dump_writes]. f_equal.
  unfold hole_text. rewrite !append_assoc. reflexivity.
Qed.

(** The buffers written one after the other spell the holes separated by
    [" - "]. *)
Lemma dump_writes_text (h : extent) (hs : list extent) :
  String.concat "" (dump_writes (h :: hs)) = map_text (h :: hs).
Proof.
  revert h. induction hs as [|h2 hs IH]; intros h.
  - reflexivity.
  - rewrite dump_writes_cons2. specialize (IH h2).
    pose proof (dump_writes_nonempty h2 hs) as Hne.
    destruct (dump_writes (h2 :: hs)) as [|w1 ws] eqn:E; [contradiction|].
    rewrite concat_cons2, IH.
    unfold map_text. cbn [map]. rewrite concat_cons2.
    rewrite append_assoc. reflexivity.
Qed.

End Dump.

(** *** The order free leaves the hole vector in *)

Lemma pair_ltb_false_le (x y : extent) :
  pair_ltb y x = false -> fst x <= fst y.
Proof.
  unfold pair_ltb. intros H. apply orb_false_iff in H as [H _].
  apply Z.ltb_ge in H. exact H.
Qed.

Lemma pair_ltb_true_le (x y : extent) :
  pair_ltb y x = true -> fst y <= fst x.
Proof.
  unfold pair_ltb. intros H. apply orb_true_iff in H as [H | H].
  - apply Z.ltb_lt in H. lia.
  - apply andb_true_iff in H as [H _]. apply Z.eqb_eq in H. lia.
Qed.

Lemma insert_sorted_In (x y : extent) (l : list extent) :
  In y (insert_sorted x l) -> y = x \/ In y l.
Proof.
  induction l as [|z l IH]; cbn [insert_sorted].
  - intros [<- | []]. now left.
  - destruct (pair_ltb z x).
    + intros [<- | H]; [right; now left|].
      destruct (IH H) as [-> | Hin]; [now left | right; now right].
    + intros [<- | H]; [now left | now right].
Qed.

Lemma insert_sorted_starts (x : extent) (l : list extent) :
  starts_sorted l -> starts_sorted (insert_sorted x l).
Proof.
  induction 1 as [|z l Hz Hl IH]; cbn [insert_sorted].
  - constructor; [intros y [] | constructor].
  - destruct (pair_ltb z x) eqn:E.
    + constructor; [|exact IH].
      intros y Hy. destruct (insert_sorted_In _ _ _ Hy) as [-> | Hin].
      * now apply pair_ltb_true_le.
      * now apply Hz.
    + apply pair_ltb_false_le in E.
      constructor; [|constructor; assumption].
      intros y [<- | Hin]; [assumption|].
      specialize (Hz y Hin). lia.
Qed.

Lemma sort_starts_sorted (v : list extent) : starts_sorted (sort v).
Proof.
  induction v as [|x v IH]; cbn; [constructor | now apply insert_sorted_starts].
Qed.

Lemma starts_sorted_ascending (l : list extent) :
  starts_sorted l -> ascending l.
Proof.
  induction 1 as [|x l Hx Hl IH]; intros i j a b Hij Hi Hj.
  - destruct i; discriminate.
  - destruct i as [|i], j as [|j]; cbn [nth_error] in Hi, Hj.
    + injection Hi as <-. injection Hj as <-. lia.
    + injection Hi as <-. apply Hx. eapply nth_error_In. eassumption.
    + lia.
    + apply (IH i j a b); [lia | assumption ..].
Qed.

(** Every [free] that returns leaves the hole vector in ascending-start
    order: sorting it is the last thing [free] does to it. *)
Lemma free_holes_ascending (address : pointer) (m m' : MemoryManager) :
  free address m = Returns m' -> ascending (holes m').
Proof.
  unfold free.
  destruct (find_offset _ 0 m address 0) as [wordOffset| |]; cbn [bind];
    try discriminate.
  destruct (remove_partition (partitions m) wordOffset) as [length partitions'].
  destruct (coalesce (holes m) 0 wordOffset length (wordOffset, length) (-1) (-1))
    as [[combine erase0] erase1].
  destruct (if negb (erase0 =? -1) then _ else _) as [holes1| |]; cbn [bind];
    try discriminate.
  destruct (if negb (erase1 =? -1) then _ else _) as [holes2| |]; cbn [bind];
    try discriminate.
  destruct (Vec.fill (bitmap m) wordOffset length 0) as [bitmap'| |];
    cbn [bind]; try discriminate.
  intros E. injection E as <-. cbn [holes].
  apply starts_sorted_ascending, sort_starts_sorted.
Qed.

(** The return value and the text of [dumpMemoryMap]: -1 on an uninitialized
    pool; on an initialized pool whose target file could be opened, 0 and
    the holes in the order of the hole vector, as
    ["[start, length] - [start, length] - ..."], and exactly ["[0, 0]"] when
    there is no hole; the hole vector a [free] has left is in ascending-start
    order. *)
Theorem dumpMemoryMap_format (fd : Z) (m : MemoryManager) :
  (memory m = 0 -> fst (dumpMemoryMap fd m) = -1) /\
  (memory m <> 0 -> fd <> -1 ->
   dumpMemoryMap fd m
   = (0, match holes m with
         | [] => "[0, 0]"%string
         | _ :: _ => map_text (holes m)
         end)) /\
  (forall address m0, free address m0 = Returns m -> ascending (holes m)).
Proof.
  unfold dumpMemoryMap. split; [|split].
  - intros ->. reflexivity.
  - intros Hm Hfd.
    destruct (Z.eqb_spec (memory m) 0) as [|_]; [contradiction|].
    destruct (Z.eqb_spec fd (-1)) as [|_]; [contradiction|].
    destruct (holes m) as [|h hs].
    + reflexivity.
    + replace (Vec.size (h :: hs) =? 0) with false.
      * now rewrite dump_writes_text.
      * symmetry. apply Z.eqb_neq. unfold Vec.size. cbn [List.length]. lia.
  - intros address m0. apply free_holes_ascending.
Qed.

Lemma dumpMemoryMap_format_witness :
  dumpMemoryMap 3 (initialize 10 (construct 4 bestFit 0))
  = (0, "[0, 10]"%string).
Proof.
  apply (proj1 (proj2 (dumpMemoryMap_format 3
                         (initialize 10 (construct 4 bestFit 0)))));
    cbn; lia.
Defined.

(** The text for the three holes left by four 2-word allocations and the
    release of the first and the third. *)
Example dump_three_holes :
  match final (session 1 10 [Allocate 2; Allocate 2; Allocate 2; Allocate 2;
                             Free 0; Free 2]) with
  | Some m => dumpMemoryMap 3 m
  | None => (-1, ""%string)
  end = (0, "[0, 2] - [4, 2] - [8, 2]"%string).
Proof. vm_compute. reflexivity. Qed.

(** C9. [dumpMemoryMap] writes the holes in the order of the hole vector and
    does not sort them.  After four 2-word allocations on a 10-word pool,
    the release of the first, the third and then the second (which has a
    hole on both sides and leaves the overlapping holes (0,6) and (4,2)),
    and a 5-word allocation, which [allocate] carves out of the hole (0,6)
    in place, the hole vector is (5,1), (4,2): [dumpMemoryMap] returns 0 and
    writes ["[5, 1] - [4, 2]"], which is not ascending by start. *)
Theorem dumpMemoryMap_writes_holes_out_of_order :
  (exists m,
     final (session 1 10 [Allocate 2; Allocate 2; Allocate 2; Allocate 2;
                          Free 0; Free 2; Free 1; Allocate 5]) = Some m /\
     memory m = 10 /\
     holes m = [(5, 1); (4, 2)] /\
     dumpMemoryMap 3 m = (0, "[5, 1] - [4, 2]"%string)) /\
  ~ ascending [(5, 1); (4, 2)].
Proof.
  split.
  - exists (mkMemoryManager 10 [(5, 1); (4, 2)] [(0, 5); (6, 2)]
              [1; 1; 1; 1; 1; 0; 1; 1; 0; 0; 0; 0; 0; 0; 0; 0] 1 10 bestFit).
    split; [vm_compute; reflexivity|].
    split; [reflexivity|]. split; [reflexivity|].
    vm_compute. reflexivity.
  - intros H.
    specialize (H 0%nat 1%nat (5, 1) (4, 2) ltac:(lia) eq_refl eq_refl).
    cbn [fst] in H. lia.
Qed.

(** ** The validation of allocate *)

(** The test that opens [allocate] returns [nullptr] and leaves the manager
    as it was when the pool has no backing bytes or the request is larger
    than [memSize * wordSize]. *)
Lemma allocate_rejects (n : Z) (m : MemoryManager) :
  memory m = 0 \/ n > memSize m * wordSize m ->
  allocate n m = Returns (None, m).
Proof.
  intros H. unfold allocate.
  destruct H as [H | H].
  - rewrite H. cbn [Z.eqb]. now rewrite !orb_true_r.
  - apply Z.gtb_gt in H. now rewrite H.
Qed.

(** C10. After [initialize(0)] the backing store has no byte although the
    hole (0, 0) was pushed: [allocate] returns [nullptr] for every request
    and changes nothing, [getList] and [getBitmap] return [nullptr], and
    [dumpMemoryMap] returns -1. *)
Theorem initialize_zero_behaves_uninitialized (m : MemoryManager) (n fd : Z) :
  holes (initialize 0 m) = [(0, 0)] /\
  memory (initialize 0 m) = 0 /\
  allocate n (initialize 0 m) = Returns (None, initialize 0 m) /\
  getList (initialize 0 m) = None /\
  getBitmap (initialize 0 m) = None /\
  fst (dumpMemoryMap fd (initialize 0 m)) = -1.
Proof.
  assert (Hmem : memory (initialize 0 m) = 0) by reflexivity.
  repeat split; try reflexivity.
  apply allocate_rejects. left. exact Hmem.
Qed.

(** ** Sessions on which the manager leaves the specified behaviour *)

(** C1. With 4-byte words a request of 5 bytes needs 2 words, but [allocate]
    records the partition (0, 1) and sets one bitmap bit: the quotient
    [sizeInBytes/wordSize] is rounded down before [ceil] is applied, and the
    single word granted does not hold the 5 bytes asked for. *)
Theorem allocate_rounds_words_down :
  words_needed 5 4 = 2 /\
  observe (session 4 10 [Allocate 5])
  = Returns ([Some 0],
             ([(1, 9)], [(0, 1)],
              [1; 0; 0; 0; 0; 0; 0; 0; 0; 0; 0; 0; 0; 0; 0; 0])) /\
  1 * 4 < 5.
Proof. split; [|split]; vm_compute; reflexivity. Qed.

(** C2. Two consecutive [free] calls on the pointer of a released
    allocation: before the second call no partition starts at its word
    offset 4 and the hole set is (0, 8); the second call adds the empty hole
    (4, 0) to the hole set. *)
Theorem free_twice_adds_empty_hole :
  observe (session 1 10 [Allocate 4; Allocate 4; Allocate 2; Free 0; Free 1])
  = Returns ([Some 0; Some 4; Some 8],
             ([(0, 8)], [(8, 2)],
              [0; 0; 0; 0; 0; 0; 0; 0; 1; 1; 0; 0; 0; 0; 0; 0])) /\
  observe (session 1 10 [Allocate 4; Allocate 4; Allocate 2; Free 0; Free 1;
                         Free 1])
  = Returns ([Some 0; Some 4; Some 8],
             ([(0, 8); (4, 0)], [(8, 2)],
              [0; 0; 0; 0; 0; 0; 0; 0; 1; 1; 0; 0; 0; 0; 0; 0])).
Proof. split; vm_compute; reflexivity. Qed.

(** C3. In a 12-word pool, five 2-word allocations, the release of the
    first and the third, then of the second (a [free] with a hole on both
    sides, which leaves the upper neighbour (4, 2) beside the merged hole
    (0, 6) and drops the hole (10, 2)), then of the fourth, one more 2-word
    allocation and the release of the fifth: the hole set after that [free]
    is (0, 6), (6, 4), the first hole ending where the second starts.  The
    same happens with 4-byte words and requests below one word, where the
    last [free] leaves the holes (1, 0) and (1, 9). *)
Theorem free_leaves_adjacent_holes :
  observe (session 1 12 [Allocate 2; Allocate 2; Allocate 2; Allocate 2;
                         Allocate 2; Free 0; Free 2])
  = Returns ([Some 0; Some 2; Some 4; Some 6; Some 8],
             ([(0, 2); (4, 2); (10, 2)], [(2, 2); (6, 2); (8, 2)],
              [0; 0; 1; 1; 0; 0; 1; 1; 1; 1; 0; 0; 0; 0; 0; 0])) /\
  observe (session 1 12 [Allocate 2; Allocate 2; Allocate 2; Allocate 2;
                         Allocate 2; Free 0; Free 2; Free 1])
  = Returns ([Some 0; Some 2; Some 4; Some 6; Some 8],
             ([(0, 6); (4, 2)], [(6, 2); (8, 2)],
              [0; 0; 0; 0; 0; 0; 1; 1; 1; 1; 0; 0; 0; 0; 0; 0])) /\
  observe (session 1 12 [Allocate 2; Allocate 2; Allocate 2; Allocate 2;
                         Allocate 2; Free 0; Free 2; Free 1; Free 3;
                         Allocate 2; Free 4])
  = Returns ([Some 0; Some 2; Some 4; Some 6; Some 8; Some 4],
             ([(0, 6); (6, 4)], [(4, 2)],
              [0; 0; 0; 0; 1; 1; 0; 0; 0; 0; 0; 0; 0; 0; 0; 0])) /\
  ~ non_adjacent [(0, 6); (6, 4)] /\
  observe (session 4 10 [Allocate 4; Allocate 2; Free 0; Allocate 2;
                         Free 1; Allocate 4; Free 3])
  = Returns ([Some 0; Some 4; Some 0; Some 0],
             ([(0, 0); (1, 0); (1, 9)], [(0, 1)],
              [1; 0; 0; 0; 0; 0; 0; 0; 0; 0; 0; 0; 0; 0; 0; 0])) /\
  ~ non_adjacent [(0, 0); (1, 0); (1, 9)].
Proof.
  split; [vm_compute; reflexivity|].
  split; [vm_compute; reflexivity|].
  split; [vm_compute; reflexivity|].
  split; [|split; [vm_compute; reflexivity|]].
  - intros H. apply (H 0%nat 1%nat (0, 6) (6, 4)); [lia | reflexivity ..].
  - intros H. apply (H 1%nat 2%nat (1, 0) (1, 9)); [lia | reflexivity ..].
Qed.

(** C4. After four 2-word allocations in a 10-word pool and the release of
    the first, the third and then the second, the hole set is (0, 6), (4, 2)
    and the partition set (6, 2): words 8 and 9 lie in no extent and words 4
    and 5 in two holes, so the sets do not tile the pool. *)
Theorem coverage_lost_after_two_sided_free :
  observe (session 1 10 [Allocate 2; Allocate 2; Allocate 2; Allocate 2;
                         Free 0; Free 2; Free 1])
  = Returns ([Some 0; Some 2; Some 4; Some 6],
             ([(0, 6); (4, 2)], [(6, 2)],
              [0; 0; 0; 0; 0; 0; 1; 1; 0; 0; 0; 0; 0; 0; 0; 0])) /\
  ~ tiles 10 [(0, 6); (4, 2)] [(6, 2)].
Proof.
  split.
  - vm_compute. reflexivity.
  - intros H. destruct (H 8) as (k & (e & Hk & Hc) & _); [lia|].
    unfold covers in Hc.
    destruct k as [|[|[|k]]]; cbn in Hk;
      try (injection Hk as <-; cbn in Hc; lia).
    destruct k; discriminate.
Qed.

(** C5. In a 10-word pool, four 2-word allocations, the release of the
    first, the third and the second, a 2-word and a 6-word allocation and the
    release of the 2-word one: the partition (0, 6) is live and holds word 4,
    but bit 4 of the bitmap is 0. *)
Theorem bitmap_diverges_from_partitions :
  observe (session 1 10 [Allocate 2; Allocate 2; Allocate 2; Allocate 2;
                         Free 0; Free 2; Free 1; Allocate 2; Allocate 6;
                         Free 4])
  = Returns ([Some 0; Some 2; Some 4; Some 6; Some 4; Some 0],
             ([(4, 2)], [(0, 6); (6, 2)],
              [1; 1; 1; 1; 0; 0; 1; 1; 0; 0; 0; 0; 0; 0; 0; 0])) /\
  exists m,
    final (session 1 10 [Allocate 2; Allocate 2; Allocate 2; Allocate 2;
                         Free 0; Free 2; Free 1; Allocate 2; Allocate 6;
                         Free 4]) = Some m /\
    ~ bitmap_faithful m.
Proof.
  split; [vm_compute; reflexivity|].
  eexists. split; [vm_compute; reflexivity|].
  intros H. specialize (H 4).
  cbn [bitmap partitions] in H.
  assert (Hr : 0 <= 4 < Vec.size [1; 1; 1; 1; 0; 0; 1; 1; 0; 0; 0; 0; 0; 0; 0; 0])
    by (vm_compute; split; congruence).
  destruct (H Hr) as [_ Hback].
  assert (E : rd [1; 1; 1; 1; 0; 0; 1; 1; 0; 0; 0; 0; 0; 0; 0; 0] 4 = 1);
    [|vm_compute in E; discriminate E].
  apply Hback. exists (0, 6). split; [left; reflexivity|].
  unfold covers. cbn. lia.
Qed.

(** C6. With 4-byte words, in the state reached by [allocate(2)] the hole
    set is (0, 10); [allocate(4)] then succeeds with the pointer at offset 0,
    and freeing that pointer at once leaves the hole set (0, 0), (1, 9).
    With 1-byte words, in the state reached by four 2-word allocations, the
    release of the first, third, second and fourth and one more 2-word
    allocation, the hole set is (0, 6), (6, 2); [allocate(2)] succeeds with
    the pointer at offset 6, and freeing it at once leaves the hole set
    (0, 8). *)
Theorem allocate_free_changes_holes :
  observe (session 4 10 [Allocate 2])
  = Returns ([Some 0],
             ([(0, 10)], [(0, 0)],
              [0; 0; 0; 0; 0; 0; 0; 0; 0; 0; 0; 0; 0; 0; 0; 0])) /\
  observe (session 4 10 [Allocate 2; Allocate 4])
  = Returns ([Some 0; Some 0],
             ([(1, 9)], [(0, 0); (0, 1)],
              [1; 0; 0; 0; 0; 0; 0; 0; 0; 0; 0; 0; 0; 0; 0; 0])) /\
  observe (session 4 10 [Allocate 2; Allocate 4; Free 1])
  = Returns ([Some 0; Some 0],
             ([(0, 0); (1, 9)], [(0, 1)],
              [1; 0; 0; 0; 0; 0; 0; 0; 0; 0; 0; 0; 0; 0; 0; 0])) /\
  observe (session 1 10 [Allocate 2; Allocate 2; Allocate 2; Allocate 2;
                         Free 0; Free 2; Free 1; Free 3; Allocate 2])
  = Returns ([Some 0; Some 2; Some 4; Some 6; Some 4],
             ([(0, 6); (6, 2)], [(4, 2)],
              [0; 0; 0; 0; 1; 1; 0; 0; 0; 0; 0; 0; 0; 0; 0; 0])) /\
  observe (session 1 10 [Allocate 2; Allocate 2; Allocate 2; Allocate 2;
                         Free 0; Free 2; Free 1; Free 3; Allocate 2;
                         Allocate 2])
  = Returns ([Some 0; Some 2; Some 4; Some 6; Some 4; Some 6],
             ([(0, 6)], [(4, 2); (6, 2)],
              [0; 0; 0; 0; 1; 1; 1; 1; 0; 0; 0; 0; 0; 0; 0; 0])) /\
  observe (session 1 10 [Allocate 2; Allocate 2; Allocate 2; Allocate 2;
                         Free 0; Free 2; Free 1; Free 3; Allocate 2;
                         Allocate 2; Free 5])
  = Returns ([Some 0; Some 2; Some 4; Some 6; Some 4; Some 6],
             ([(0, 8)], [(4, 2)],
              [0; 0; 0; 0; 1; 1; 0; 0; 0; 0; 0; 0; 0; 0; 0; 0])).
Proof. repeat (split; [vm_compute; reflexivity|]). vm_compute. reflexivity. Qed.

(** C8. On an initialized 10-word pool [allocate(0)] does not fail: it
    returns the pointer at offset 0 and records the partition (0, 0). *)
Theorem allocate_zero_bytes_succeeds :
  observe (session 1 10 [])
  = Returns ([],
             ([(0, 10)], [],
              [0; 0; 0; 0; 0; 0; 0; 0; 0; 0; 0; 0; 0; 0; 0; 0])) /\
  observe (session 1 10 [Allocate 0])
  = Returns ([Some 0],
             ([(0, 10)], [(0, 0)],
              [0; 0; 0; 0; 0; 0; 0; 0; 0; 0; 0; 0; 0; 0; 0; 0])).
Proof. split; vm_compute; reflexivity. Qed.

(** ** General facts behind the sessions above *)

(** Whatever the manager and the request, a successful [allocate] records a
    partition of [sizeInBytes / wordSize] words, the quotient rounded down,
    at the offset its allocator chose for that many words. *)
Lemma allocate_partition_words (n : Z) (m m' : MemoryManager) (p : Z) :
  allocate n m = Returns (Some p, m') ->
  let words := u32 (n / wordSize m) in
  let holeSelected := allocator m words (hole_list (holes m)) in
  partitions m'
  = sort (Vec.push_back (partitions m) (u32 holeSelected, words)) /\
  p = u32 (holeSelected * wordSize m).
Proof.
  unfold allocate, getList, ceil.
  destruct ((n >? memSize m * wordSize m) || (n <? 0) || (memory m =? 0));
    [discriminate|].
  destruct (memory m =? 0); [discriminate|].
  destruct (allocator m (u32 (n / wordSize m)) (hole_list (holes m)) =? -1);
    [discriminate|].
  destruct (Vec.at_ (holes m) _) as [h| |]; cbn [bind]; try discriminate.
  destruct (if snd h =? _ then _ else _) as [holes'| |]; cbn [bind];
    try discriminate.
  destruct (Vec.fill (bitmap m) _ _ 1) as [bitmap'| |]; cbn [bind];
    try discriminate.
  destruct (_ <? memory m); [|discriminate].
  intros E. injection E as <- <-. split; reflexivity.
Qed.

(** Scenario A of the specification, on which the manager does as
    specified. *)
Example scenario_A :
  observe (session 1 10 [Allocate 4; Allocate 2])
  = Returns ([Some 0; Some 4],
             ([(6, 4)], [(0, 4); (4, 2)],
              [1; 1; 1; 1; 1; 1; 0; 0; 0; 0; 0; 0; 0; 0; 0; 0])).
Proof. vm_compute. reflexivity. Qed.

(** *** free on an offset where no partition starts *)

Lemma remove_partition_unmatched (ps : list extent) (wordOffset : Z) :
  (forall p, In p ps -> fst p <> wordOffset) ->
  remove_partition ps wordOffset = (0, ps).
Proof.
  induction ps as [|p ps IH]; intros H; cbn [remove_partition].
  - reflexivity.
  - destruct (Z.eqb_spec (fst p) wordOffset) as [E | _].
    + exfalso. apply (H p); [now left | exact E].
    + rewrite IH; [reflexivity|]. intros q Hq. apply H. now right.
Qed.

Lemma coalesce_untouched (hs : list extent) (i wordOffset length : Z)
    (combine : Z * Z) (erase0 erase1 : Z) :
  (forall h, In h hs ->
     u32 (fst h + snd h) <> wordOffset /\
     fst h <> u32 (fst combine + snd combine)) ->
  coalesce hs i wordOffset length combine erase0 erase1
  = (combine, erase0, erase1).
Proof.
  revert i. induction hs as [|h hs IH]; intros i H; cbn [coalesce].
  - reflexivity.
  - destruct (H h (or_introl eq_refl)) as [H1 H2].
    destruct (Z.eqb_spec (u32 (fst h + snd h)) wordOffset) as [E | _];
      [contradiction|].
    destruct (Z.eqb_spec (fst h) (u32 (fst combine + snd combine))) as [E | _];
      [contradiction|].
    apply IH. intros h' Hin. apply H. now right.
Qed.

Lemma fill_nothing (v : list Z) (start x : Z) :
  0 <= start <= Vec.size v -> Vec.fill v start 0 x = Returns v.
Proof.
  intros H. unfold Vec.fill.
  replace ((0 <=? start) && (0 <=? 0) && (start + 0 <=? Vec.size v)) with true.
  - rewrite Z.add_0_r. cbn [Z.to_nat repeat app]. now rewrite firstn_skipn.
  - symmetry. rewrite !andb_true_iff. repeat split; apply Z.leb_le; lia.
Qed.

(** When the scan of [free] ends on a word offset at which no partition
    starts, and no hole starts or ends there either, [free] returns with
    the partitions and the bitmap as they were and with one more hole, the
    empty hole at that offset. *)
Lemma free_unmatched_pushes_empty_hole (address : pointer) (m : MemoryManager)
    (wordOffset : Z) :
  find_offset (Z.to_nat (memory m)) 0 m address 0 = Returns wordOffset ->
  (forall p, In p (partitions m) -> fst p <> wordOffset) ->
  (forall h, In h (holes m) ->
     u32 (fst h + snd h) <> wordOffset /\ fst h <> u32 (wordOffset + 0)) ->
  0 <= wordOffset <= Vec.size (bitmap m) ->
  exists m',
    free address m = Returns m' /\
    holes m' = sort (Vec.push_back (holes m) (u32 wordOffset, u32 0)) /\
    partitions m' = partitions m /\
    bitmap m' = bitmap m.
Proof.
  intros Hoff Hparts Hholes Hbits. unfold free.
  rewrite Hoff. cbn [bind].
  rewrite (remove_partition_unmatched _ _ Hparts).
  rewrite (coalesce_untouched (holes m) 0 wordOffset 0 (wordOffset, 0) (-1) (-1))
    by exact Hholes.
  cbn [Z.eqb negb bind fst snd].
  rewrite (fill_nothing _ _ 0 Hbits). cbn [bind].
  eexists. split; [reflexivity|]. cbn. repeat split.
Qed.

(** The export of [getBitmap] after one 4-word allocation in a 10-word pool:
    the little-endian byte count 2, then the low four bits of the first
    byte. *)
Example getBitmap_after_allocate :
  match allocate 4 (initialize 10 (construct 1 bestFit 0)) with
  | Returns (_, m) => getBitmap m
  | _ => None
  end = Some [2; 0; 15; 0].
Proof. vm_compute. reflexivity. Qed.

(** A [free] between two holes of which the upper one is the last of the
    vector: the second [erase] is given the position [end()]. *)
Example two_sided_free_below_last_hole :
  observe (session 1 10 [Allocate 4; Allocate 4; Free 0])
  = Returns ([Some 0; Some 4],
             ([(0, 4); (8, 2)], [(4, 4)],
              [0; 0; 0; 0; 1; 1; 1; 1; 0; 0; 0; 0; 0; 0; 0; 0])) /\
  observe (session 1 10 [Allocate 4; Allocate 4; Free 0; Free 1]) = Undefined.
Proof. split; vm_compute; reflexivity. Qed.

(** ** The round trip on a clean manager *)

Section RoundTrip.

(** *** The address scan of free *)

Lemma find_offset_scan (m : MemoryManager) (s : Z) :
  1 <= wordSize m ->
  memory m = memSize m * wordSize m ->
  memory m < 4294967296 ->
  0 <= s < memSize m ->
  forall (fuel : nat) (j acc : Z),
    0 <= j <= memSize m ->
    (Z.to_nat (memSize m - j) <= fuel)%nat ->
    find_offset fuel (j * wordSize m) m (Some (s * wordSize m)) acc
    = Returns (if j <=? s then s else acc).
Proof.
  intros Hws Hmem Hreach Hs.
  induction fuel as [|fuel IH]; intros j acc Hj Hfuel.
  - assert (j = memSize m) by lia. subst j.
    cbn [find_offset]. rewrite Hmem, Z.ltb_irrefl.
    destruct (Z.leb_spec (memSize m) s); [lia | reflexivity].
  - cbn [find_offset].
    destruct (Z.ltb_spec (j * wordSize m) (memory m)) as [Hlt | Hge].
    + assert (Hj' : j < memSize m) by (rewrite Hmem in Hlt; nia).
      assert (Hwrap : u32 (j * wordSize m + wordSize m) = (j + 1) * wordSize m).
      { unfold u32. rewrite Z.mod_small; nia. }
      rewrite Hwrap. rewrite IH by lia.
      cbn [ptr_eqb]. f_equal.
      destruct (Z.eqb_spec (j * wordSize m) (s * wordSize m)) as [E | E].
      * assert (j = s) by nia. subst j.
        rewrite Z.div_mul by lia.
        destruct (Z.leb_spec (s + 1) s); [lia|].
        destruct (Z.leb_spec s s); [reflexivity | lia].
      * assert (j <> s) by (intros ->; apply E; reflexivity).
        destruct (Z.leb_spec (j + 1) s), (Z.leb_spec j s); try lia; reflexivity.
    + assert (j = memSize m) by (rewrite Hmem in Hge; nia). subst j.
      destruct (Z.leb_spec (memSize m) s); [lia | reflexivity].
Qed.

(** The scan maps the pointer to word [s] back to [s]. *)
Lemma find_offset_word (m : MemoryManager) (s : Z) :
  1 <= wordSize m ->
  memory m = memSize m * wordSize m ->
  memory m < 4294967296 ->
  0 <= s < memSize m ->
  find_offset (Z.to_nat (memory m)) 0 m (Some (s * wordSize m)) 0 = Returns s.
Proof.
  intros Hws Hmem Hreach Hs.
  pose proof (find_offset_scan m s Hws Hmem Hreach Hs
                (Z.to_nat (memory m)) 0 0) as H.
  cbn [Z.mul] in H. rewrite H.
  - destruct (Z.leb_spec 0 s); [reflexivity | lia].
  - lia.
  - rewrite Hmem. apply Z2Nat.inj_le; nia.
Qed.

(** *** Sorting a separated vector *)

Lemma In_insert_sorted (x y : extent) (l : list extent) :
  y = x \/ In y l -> In y (insert_sorted x l).
Proof.
  induction l as [|z l IH]; cbn [insert_sorted].
  - intros [-> | []]. now left.
  - destruct (pair_ltb z x).
    + intros [-> | [-> | H]].
      * right. apply IH. now left.
      * now left.
      * right. apply IH. now right.
    + intros [-> | H]; [now left | now right].
Qed.

Lemma In_sort (y : extent) (v : list extent) : In y (sort v) <-> In y v.
Proof.
  induction v as [|x v IH]; cbn [sort fold_right]; [tauto|].
  split.
  - intros H. apply insert_sorted_In in H as [-> | H]; [now left|].
    right. now apply IH.
  - intros [<- | H]; apply In_insert_sorted; [now left|].
    right. now apply IH.
Qed.

Lemma insert_sorted_front (x y : extent) (l : list extent) :
  fst x < fst y -> insert_sorted x (y :: l) = x :: y :: l.
Proof.
  intros H. cbn [insert_sorted]. unfold pair_ltb.
  destruct (Z.ltb_spec (fst y) (fst x)); [lia|].
  destruct (Z.eqb_spec (fst y) (fst x)); [lia|]. reflexivity.
Qed.

Lemma insert_sorted_skip (x y : extent) (l : list extent) :
  fst y < fst x -> insert_sorted x (y :: l) = y :: insert_sorted x l.
Proof.
  intros H. cbn [insert_sorted]. unfold pair_ltb.
  destruct (Z.ltb_spec (fst y) (fst x)); [reflexivity | lia].
Qed.

Lemma separated_app (pre post : list extent) (h : extent) :
  separated (pre ++ h :: post) ->
  (forall a, In a pre -> fst a + snd a < fst h) /\
  (forall b, In b post -> fst h + snd h < fst b) /\
  separated (pre ++ post).
Proof.
  induction pre as [|x pre IH]; cbn [app]; intros H;
    inversion H as [|x' l' Hx Hl]; subst.
  - split; [intros a []|]. split; assumption.
  - destruct (IH Hl) as (Hpre & Hpost & Hsep).
    split; [|split].
    + intros a [<- | Ha]; [apply Hx, in_or_app; right; now left | now apply Hpre].
    + assumption.
    + constructor; [|assumption].
      intros y Hy. apply Hx. apply in_app_or in Hy as [Hy | Hy];
        apply in_or_app; [now left | right; now right].
Qed.

Lemma insert_sorted_least (x : extent) (l : list extent) :
  (forall y, In y l -> fst x < fst y) -> insert_sorted x l = x :: l.
Proof.
  destruct l as [|y l]; intros H; [reflexivity|].
  apply insert_sorted_front, H. now left.
Qed.

Lemma sort_onto_increasing (pre rest : list extent) :
  increasing (pre ++ rest) ->
  fold_right insert_sorted rest pre = pre ++ rest.
Proof.
  induction pre as [|x pre IH]; cbn [app fold_right]; intros H;
    [reflexivity|].
  inversion H as [|x' l' Hx Hl]; subst.
  rewrite IH by assumption. now apply insert_sorted_least.
Qed.

Lemma sort_behind_increasing (h : extent) (post : list extent) :
  increasing (h :: post) ->
  fold_right insert_sorted [h] post = h :: post.
Proof.
  induction post as [|b post IH]; cbn [fold_right]; intros H;
    [reflexivity|].
  inversion H as [|x' l' Hh Hl]; subst.
  inversion Hl as [|b' l'' Hb Hpost]; subst.
  rewrite IH.
  - rewrite insert_sorted_skip by (apply Hh; now left).
    now rewrite insert_sorted_least.
  - constructor; [|assumption]. intros y Hy. apply Hh. now right.
Qed.

Lemma increasing_app_r (pre rest : list extent) :
  increasing (pre ++ rest) -> increasing rest.
Proof.
  induction pre as [|x pre IH]; cbn [app]; intros H; [assumption|].
  inversion H; subst. now apply IH.
Qed.

(** Pushing a hole back behind an increasing vector it was taken out of and
    sorting puts it where it was. *)
Lemma sort_push_back (pre post : list extent) (h : extent) :
  increasing (pre ++ h :: post) ->
  sort (Vec.push_back (pre ++ post) h) = pre ++ h :: post.
Proof.
  unfold Vec.push_back, sort. intros H.
  rewrite <- app_assoc, fold_right_app.
  rewrite fold_right_app. cbn [fold_right].
  change (insert_sorted h []) with [h].
  rewrite sort_behind_increasing by (eapply increasing_app_r; eassumption).
  now apply sort_onto_increasing.
Qed.

Lemma separated_increasing (l : list extent) :
  Forall (fun a => 1 <= snd a) l -> separated l -> increasing l.
Proof.
  intros Hlen Hsep. induction Hsep as [|x l Hx Hl IH]; [constructor|].
  inversion Hlen as [|x' l' Hx1 Hl1]; subst.
  constructor; [|now apply IH].
  intros y Hy. specialize (Hx y Hy). lia.
Qed.

(** *** Vector operations at the position behind a prefix *)

Lemma size_app_cons {A : Type} (pre post : list A) (a : A) :
  0 <= Vec.size pre < Vec.size (pre ++ a :: post).
Proof.
  unfold Vec.size. rewrite length_app. cbn [List.length]. lia.
Qed.

Lemma in_bounds {A : Type} (pre post : list A) (a : A) :
  (0 <=? Vec.size pre) && (Vec.size pre <? Vec.size (pre ++ a :: post)) = true.
Proof.
  pose proof (size_app_cons pre post a) as H.
  apply andb_true_iff. split; [apply Z.leb_le | apply Z.ltb_lt]; lia.
Qed.

Lemma firstn_prefix {A : Type} (pre rest : list A) :
  firstn (List.length pre) (pre ++ rest) = pre.
Proof.
  induction pre as [|x pre IH]; cbn; [now destruct rest | now rewrite IH].
Qed.

Lemma skipn_past {A : Type} (pre post : list A) (a : A) :
  skipn (S (List.length pre)) (pre ++ a :: post) = post.
Proof. induction pre as [|x pre IH]; cbn in *; [reflexivity | exact IH]. Qed.

Lemma at_app {A : Type} (pre post : list A) (a : A) :
  Vec.at_ (pre ++ a :: post) (Vec.size pre) = Returns a.
Proof.
  unfold Vec.at_. rewrite in_bounds. unfold Vec.size. rewrite Nat2Z.id.
  rewrite nth_error_app2 by lia. now rewrite Nat.sub_diag.
Qed.

Lemma erase_app {A : Type} (pre post : list A) (a : A) :
  Vec.erase (pre ++ a :: post) (Vec.size pre) = Returns (pre ++ post).
Proof.
  unfold Vec.erase. rewrite in_bounds. unfold Vec.size. rewrite Nat2Z.id.
  now rewrite firstn_prefix, skipn_past.
Qed.

Lemma set_app {A : Type} (pre post : list A) (a b : A) :
  Vec.set (pre ++ a :: post) (Vec.size pre) b = Returns (pre ++ b :: post).
Proof.
  unfold Vec.set. rewrite in_bounds. unfold Vec.size. rewrite Nat2Z.id.
  now rewrite firstn_prefix, skipn_past.
Qed.

Lemma fill_in_range (v : list Z) (start len x : Z) :
  0 <= start -> 0 <= len -> start + len <= Vec.size v ->
  exists v', Vec.fill v start len x = Returns v' /\ Vec.size v' = Vec.size v.
Proof.
  intros Hs Hl Hr. unfold Vec.fill.
  replace ((0 <=? start) && (0 <=? len) && (start + len <=? Vec.size v))
    with true
    by (symmetry; rewrite !andb_true_iff; repeat split; apply Z.leb_le; lia).
  eexists. split; [reflexivity|].
  unfold Vec.size in *. rewrite !length_app, repeat_length.
  rewrite length_firstn, length_skipn. lia.
Qed.

(** *** The scans of allocate and free *)

Lemma find_index_app (pre post : list extent) (h : extent) (i s : Z) :
  (forall a, In a pre -> fst a <> u32 s) ->
  fst h = u32 s ->
  find_index (pre ++ h :: post) i s = Some (i + Vec.size pre).
Proof.
  revert i. induction pre as [|a pre IH]; intros i Hpre Hh; cbn [app find_index].
  - rewrite Hh, Z.eqb_refl. unfold Vec.size. cbn. f_equal. lia.
  - destruct (Z.eqb_spec (fst a) (u32 s)) as [E | _].
    + exfalso. apply (Hpre a); [now left | exact E].
    + rewrite IH; [|intros b Hb; apply Hpre; now right | assumption].
      unfold Vec.size. cbn [List.length]. f_equal. lia.
Qed.

Lemma remove_partition_length (l : list extent) (s w : Z) :
  In (s, w) l ->
  (forall q, In q l -> fst q = s -> q = (s, w)) ->
  fst (remove_partition l s) = w.
Proof.
  induction l as [|p l IH]; intros Hin Huniq; [destruct Hin|].
  cbn [remove_partition].
  destruct (Z.eqb_spec (fst p) s) as [E | E].
  - rewrite (Huniq p (or_introl eq_refl) E). reflexivity.
  - destruct Hin as [-> | Hin]; [exfalso; apply E; reflexivity|].
    specialize (IH Hin (fun q Hq => Huniq q (or_intror Hq))).
    destruct (remove_partition l s) as [len rest]. exact IH.
Qed.

Lemma coalesce_skip (pre rest : list extent) (i wordOffset length : Z)
    (combine : Z * Z) (erase0 erase1 : Z) :
  (forall h, In h pre ->
     u32 (fst h + snd h) <> wordOffset /\
     fst h <> u32 (fst combine + snd combine)) ->
  coalesce (pre ++ rest) i wordOffset length combine erase0 erase1
  = coalesce rest (i + Vec.size pre) wordOffset length combine erase0 erase1.
Proof.
  revert i. induction pre as [|h pre IH]; intros i H; cbn [app coalesce].
  - unfold Vec.size. cbn. now rewrite Z.add_0_r.
  - destruct (H h (or_introl eq_refl)) as [H1 H2].
    destruct (Z.eqb_spec (u32 (fst h + snd h)) wordOffset) as [E | _];
      [contradiction|].
    destruct (Z.eqb_spec (fst h) (u32 (fst combine + snd combine))) as [E | _];
      [contradiction|].
    rewrite IH by (intros h' Hin; apply H; now right).
    f_equal. unfold Vec.size. cbn [List.length]. lia.
Qed.

(** When [bestFit] does not answer -1 it answers the start of one of the
    holes, long enough for the request. *)
Lemma bestFit_found (w : Z) (hs : list extent) :
  encodable hs ->
  bestFit w (hole_list hs) <> -1 ->
  exists k h,
    nth_error hs k = Some h /\ bestFit w (hole_list hs) = fst h /\ w <= snd h.
Proof.
  intros Henc Hfit. rewrite (bestFit_fold w hs Henc) in *.
  destruct (fold_better_spec w hs (-1, 65536))
    as [[Hr _] | (k & h & Hk & Hr & Hq & _)]; rewrite Hr in *.
  - exfalso. apply Hfit. reflexivity.
  - exists k, h. repeat split; assumption.
Qed.

(** *** allocate on a clean manager *)

Lemma u32_small (x : Z) : 0 <= x < 4294967296 -> u32 x = x.
Proof. intros H. unfold u32. now apply Z.mod_small. Qed.

Lemma clean_encodable (m : MemoryManager) : clean m -> encodable (holes m).
Proof.
  intros C. split; [apply (clean_count m C)|].
  pose proof (clean_range m C) as Hr. pose proof (clean_memSize m C) as Hs.
  rewrite Forall_forall in *. intros h Hh. specialize (Hr h Hh). lia.
Qed.

(** With [bestFit] as its allocator and a request of at least one word, a
    successful [allocate] on a clean manager carves the request from the low
    end of one of the holes and returns the pointer to the first word of
    that hole. *)
Lemma allocate_clean (m m1 : MemoryManager) (n p : Z) :
  clean m -> allocator m = bestFit -> wordSize m <= n ->
  allocate n m = Returns (Some p, m1) ->
  exists pre h post,
    holes m = pre ++ h :: post /\
    1 <= n / wordSize m <= snd h /\
    p = fst h * wordSize m /\
    holes m1 = (if snd h =? n / wordSize m then pre ++ post
                else pre ++ (fst h + n / wordSize m, snd h - n / wordSize m)
                       :: post) /\
    partitions m1
    = sort (Vec.push_back (partitions m) (fst h, n / wordSize m)) /\
    Vec.size (bitmap m1) = Vec.size (bitmap m) /\
    memory m1 = memory m /\ wordSize m1 = wordSize m /\
    memSize m1 = memSize m.
Proof.
  intros C Halloc Hn Ha.
  pose proof (clean_encodable m C) as Henc.
  destruct C as [Hws Hmem Hreach Hsize Hcount Hsep Hrange Hparts Hbm].
  unfold allocate, getList, ceil in Ha.
  destruct ((n >? memSize m * wordSize m) || (n <? 0) || (memory m =? 0))
    eqn:G; [discriminate|].
  apply orb_false_iff in G as [G Gmem]. apply orb_false_iff in G as [Gcap _].
  rewrite Gmem in Ha.
  assert (Hcap : n <= memSize m * wordSize m).
  { destruct (Z.gtb_spec n (memSize m * wordSize m)); [discriminate | lia]. }
  set (w := n / wordSize m) in *.
  assert (Hw : 1 <= w <= memSize m).
  { unfold w. split.
    - apply Z.div_le_lower_bound; lia.
    - apply Z.div_le_upper_bound; lia. }
  rewrite (u32_small w) in Ha by lia.
  rewrite Halloc in Ha.
  destruct (Z.eqb_spec (bestFit w (hole_list (holes m))) (-1)) as [|Hfit];
    [discriminate|].
  destruct (bestFit_found w (holes m) Henc Hfit) as (k & h & Hk & Hbest & Hq).
  rewrite Hbest in Ha.
  destruct (nth_error_split _ _ Hk) as (pre & post & Hholes & Hlen).
  rewrite Hholes in Hsep, Hrange, Ha.
  destruct (separated_app pre post h Hsep) as (Hpre & Hpost & _).
  apply Forall_app in Hrange as [Rpre Rh].
  inversion Rh as [|h' l' Hh Rpost]; subst h' l'.
  rewrite Forall_forall in Rpre, Rpost.
  assert (Hidx : hole_index (pre ++ h :: post) (fst h) = Vec.size pre).
  { unfold hole_index. rewrite find_index_app.
    - reflexivity.
    - intros a Ha'. rewrite u32_small by lia.
      specialize (Hpre a Ha'). specialize (Rpre a Ha'). lia.
    - rewrite u32_small by lia. reflexivity. }
  rewrite Hidx, at_app in Ha. cbn [bind] in Ha.
  assert (Hset : (if snd h =? w
                  then Vec.erase (pre ++ h :: post) (Vec.size pre)
                  else Vec.set (pre ++ h :: post) (Vec.size pre)
                         (u32 (fst h + w), u32 (snd h - w)))
                 = Returns (if snd h =? w then pre ++ post
                            else pre ++ (fst h + w, snd h - w) :: post)).
  { destruct (snd h =? w); [apply erase_app|].
    rewrite set_app, !u32_small by lia. reflexivity. }
  rewrite Hset in Ha. cbn [bind] in Ha.
  destruct (fill_in_range (bitmap m) (fst h) w 1) as (bm1 & Hfill & Hbm1);
    [lia | lia | lia |].
  rewrite Hfill in Ha. cbn [bind] in Ha.
  assert (Hoff : u32 (fst h * wordSize m) = fst h * wordSize m)
    by (apply u32_small; nia).
  rewrite Hoff in Ha.
  destruct (Z.ltb_spec (fst h * wordSize m) (memory m)) as [_ | Hge];
    [|exfalso; nia].
  injection Ha as <- <-. cbn [holes partitions bitmap memory wordSize memSize].
  exists pre, h, post. rewrite (u32_small (fst h)) by lia.
  repeat split; try assumption; try reflexivity; lia.
Qed.

(** *** free of the pointer just returned *)

(** On a clean manager with [bestFit], [allocate] of at least one word
    followed at once by [free] of the returned pointer returns and leaves the
    hole vector exactly as it was before the allocation. *)
Lemma allocate_free_round_trip (m m1 : MemoryManager) (n p : Z) :
  clean m -> allocator m = bestFit -> wordSize m <= n ->
  allocate n m = Returns (Some p, m1) ->
  exists m2, free (Some p) m1 = Returns m2 /\ holes m2 = holes m.
Proof.
  intros C Halloc Hn Ha.
  destruct (allocate_clean m m1 n p C Halloc Hn Ha)
    as (pre & h & post & Hholes & Hw & -> & Hholes1 & Hparts1 & Hbm1
        & Hmem1 & Hws1 & Hsize1).
  destruct C as [Hws Hmem Hreach Hsize Hcount Hsep Hrange Hparts Hbm].
  set (w := n / wordSize m) in *.
  rewrite Hholes in *.
  destruct (separated_app pre post h Hsep) as (Hpre & Hpost & _).
  pose proof Hrange as Hrange'.
  apply Forall_app in Hrange' as [Rpre Rh].
  inversion Rh as [|h' l' Hh Rpost]; subst h' l'.
  rewrite Forall_forall in Rpre, Rpost.
  assert (Hinc : increasing (pre ++ h :: post)).
  { apply separated_increasing; [|assumption].
    eapply Forall_impl; [|exact Hrange]. cbn. intros a Ha'. lia. }
  unfold free.
  (* the scan finds the word offset of the hole *)
  rewrite <- Hws1, Hmem1.
  assert (Hscan : find_offset (Z.to_nat (memory m)) 0 m1
                    (Some (fst h * wordSize m1)) 0 = Returns (fst h)).
  { rewrite <- Hmem1. apply find_offset_word; rewrite ?Hws1, ?Hmem1, ?Hsize1;
      try assumption. lia. }
  rewrite Hscan. cbn [bind].
  (* the partition just recorded is the one starting there *)
  assert (Hlen : fst (remove_partition (partitions m1) (fst h)) = w).
  { rewrite Hparts1. apply remove_partition_length.
    - apply (proj2 (In_sort _ _)). unfold Vec.push_back.
      apply in_or_app. right. now left.
    - intros q Hq Hfst. apply (proj1 (In_sort _ _)) in Hq.
      unfold Vec.push_back in Hq.
      apply in_app_or in Hq as [Hq | [<- | []]]; [|reflexivity].
      exfalso. apply (Hparts q h Hq); [|exact Hfst].
      apply in_or_app. right. now left. }
  destruct (remove_partition (partitions m1) (fst h)) as [len ps'].
  cbn [fst] in Hlen. subst len.
  (* no hole ends at the freed offset; the remainder, if any, starts behind
     the freed words *)
  assert (Hpre' : forall a, In a pre ->
            u32 (fst a + snd a) <> fst h /\ fst a <> u32 (fst h + w)).
  { intros a Ha'. specialize (Hpre a Ha'). specialize (Rpre a Ha').
    rewrite !u32_small by lia. lia. }
  assert (Hpost' : forall b, In b post ->
            u32 (fst b + snd b) <> fst h /\ fst b <> u32 (fst h + w)).
  { intros b Hb. specialize (Hpost b Hb). specialize (Rpost b Hb).
    rewrite !u32_small by lia. lia. }
  destruct (fill_in_range (bitmap m1) (fst h) w 0) as (bm2 & Hfill & _);
    [lia | lia | lia |].
  rewrite Hholes1.
  destruct (Z.eqb_spec (snd h) w) as [Heq | Hne].
  - (* the hole was consumed whole *)
    rewrite coalesce_untouched.
    + change (-1 =? -1) with true. cbn [negb bind fst snd].
      rewrite Hfill. cbn [bind].
      eexists. split; [reflexivity|]. cbn [holes].
      rewrite !u32_small by lia. rewrite <- Heq.
      replace (fst h, snd h) with h by (destruct h; reflexivity).
      now apply sort_push_back.
    + cbn [fst snd]. intros a Ha'.
      apply in_app_or in Ha' as [Ha' | Ha']; [now apply Hpre' | now apply Hpost'].
  - (* the remainder of the hole is merged back *)
    rewrite coalesce_skip by (cbn [fst snd]; exact Hpre').
    cbn [coalesce fst snd].
    destruct (Z.eqb_spec (u32 (fst h + w + (snd h - w))) (fst h)) as [E | _].
    { exfalso. rewrite u32_small in E by lia. lia. }
    cbn [fst snd]. rewrite (u32_small (fst h + w)) by lia.
    rewrite Z.eqb_refl.
    change (-1 =? -1) with true. cbn [negb bind].
    replace (0 + Vec.size pre =? -1) with false
      by (symmetry; apply Z.eqb_neq; unfold Vec.size; lia).
    cbn [negb]. rewrite Z.add_0_l, erase_app. cbn [bind].
    rewrite Hfill. cbn [bind].
    eexists. split; [reflexivity|]. cbn [holes fst snd].
    rewrite !u32_small by lia.
    replace (w + (snd h - w)) with (snd h) by lia.
    replace (fst h, snd h) with h by (destruct h; reflexivity).
    now apply sort_push_back.
Qed.

(** The pool fresh from [initialize] is clean. *)
Lemma initialize_clean (wordCount ws g : Z) (a : allocator_fn) :
  1 <= wordCount <= 65535 -> 1 <= ws -> wordCount * ws < 4294967296 ->
  clean (initialize wordCount (construct ws a g)).
Proof.
  intros Hn Hws Hreach. unfold initialize, construct, shutdown.
  cbn [wordSize memSize allocator holes partitions].
  destruct (Z.gtb_spec wordCount 65535) as [|_]; [lia|].
  constructor; cbn [wordSize memSize memory holes partitions bitmap];
    try lia; try reflexivity.
  - cbn. lia.
  - constructor; [intros y [] | constructor].
  - repeat constructor; cbn; lia.
  - intros p h [].
  - unfold Vec.size. rewrite repeat_length.
    pose proof (Z.mod_pos_bound wordCount 8).
    destruct (wordCount mod 8 =? 0); lia.
Qed.

(** The round trip on a fresh 10-word pool of 4-byte words and a request of
    two words. *)
Example round_trip_fresh_pool :
  observe (session 4 10 [Allocate 8])
  = Returns ([Some 0],
             ([(2, 8)], [(0, 2)],
              [1; 1; 0; 0; 0; 0; 0; 0; 0; 0; 0; 0; 0; 0; 0; 0])) /\
  forall p m1,
    allocate 8 (initialize 10 (construct 4 bestFit 0)) = Returns (Some p, m1) ->
    exists m2, free (Some p) m1 = Returns m2 /\ holes m2 = [(0, 10)].
Proof.
  split; [vm_compute; reflexivity|].
  intros p m1 Ha.
  apply (allocate_free_round_trip (initialize 10 (construct 4 bestFit 0))
           m1 8 p); [|reflexivity | cbn; lia | exact Ha].
  apply initialize_clean; lia.
Qed.

End RoundTrip.

(** * Further properties of the source *)

(** ** worstFit *)

Section WorstFit.

Variable w : Z.

Lemma worstFit_loop_fold (c : Z) (rest done : list extent) (b : Z * Z) :
  Forall (fun h => 0 <= fst h <= 65535 /\ 0 <= snd h <= 65535) rest ->
  Z.of_nat (List.length (done ++ rest)) <= 32767 ->
  worstFit_loop (List.length rest) (1 + 2 * Z.of_nat (List.length done))
    (Z.of_nat (List.length (done ++ rest))) w
    (c :: holes_array (done ++ rest)) b
  = Returns (fold_left (larger w) rest b).
Proof.
  revert done b. induction rest as [|h rest IH]; intros done b Hr Hn.
  - cbn [List.length fold_left worstFit_loop]. rewrite app_nil_r.
    assert (Hge : (1 + 2 * Z.of_nat (List.length done)
                   <? Z.of_nat (List.length done) * 2) = false)
      by (apply Z.ltb_ge; lia).
    now rewrite Hge.
  - inversion Hr as [|h' r' Hh Hrest]; subst.
    cbn [List.length worstFit_loop fold_left].
    assert (Hlen : Z.of_nat (List.length (done ++ h :: rest))
                   = Z.of_nat (List.length done) + 1 + Z.of_nat (List.length rest)).
    { rewrite length_app. cbn [List.length]. lia. }
    assert (Hlt : (1 + 2 * Z.of_nat (List.length done)
                   <? Z.of_nat (List.length (done ++ h :: rest)) * 2) = true).
    { apply Z.ltb_lt. lia. }
    rewrite Hlt.
    pose proof (rd_after c done (h :: rest) 0) as R0.
    pose proof (rd_after c done (h :: rest) 1) as R1.
    cbn [holes_array nth] in R0, R1.
    change (Z.of_nat 0) with 0 in R0. rewrite Z.add_0_r in R0.
    change (Z.of_nat 1) with 1 in R1.
    rewrite R0, R1.
    rewrite (u16_small (fst h)), (u16_small (snd h)) by tauto.
    assert (Hdone : u16 (1 + 2 * Z.of_nat (List.length done) + 2)
                    = 1 + 2 * Z.of_nat (List.length (done ++ [h]))).
    { rewrite u16_small by lia. rewrite length_app. cbn [List.length]. lia. }
    rewrite Hdone.
    replace (done ++ h :: rest) with ((done ++ [h]) ++ rest) in *
      by (rewrite <- app_assoc; reflexivity).
    rewrite IH by assumption.
    do 2 f_equal. unfold larger. destruct h as [hs hl]. reflexivity.
Qed.

Lemma fold_larger_spec (rest : list extent) (b : Z * Z) :
  (fold_left (larger w) rest b = b /\
   forall h, In h rest -> w <= snd h -> snd h <= snd b)
  \/
  (exists k h,
      nth_error rest k = Some h /\ fold_left (larger w) rest b = h /\
      w <= snd h /\ snd b < snd h /\
      forall j h', nth_error rest j = Some h' -> w <= snd h' ->
        snd h' <= snd h /\ (snd h' = snd h -> (k <= j)%nat)).
Proof.
  revert b. induction rest as [|x rest IH]; intros b.
  - left. split; [reflexivity | intros h []].
  - cbn [fold_left].
    assert (Hshift : forall k h,
               nth_error rest k = Some h -> w <= snd h -> snd b < snd h ->
               (w <= snd x -> snd x < snd h) ->
               (forall j h', nth_error rest j = Some h' -> w <= snd h' ->
                  snd h' <= snd h /\ (snd h' = snd h -> (k <= j)%nat)) ->
               forall j h', nth_error (x :: rest) j = Some h' -> w <= snd h' ->
                  snd h' <= snd h /\ (snd h' = snd h -> (S k <= j)%nat)).
    { intros k h Hk Hq Hlt Hx Hmin j h' Hj Hw.
      destruct j as [|j]; cbn [nth_error] in Hj.
      - inversion Hj; subst. specialize (Hx Hw). lia.
      - destruct (Hmin j h' Hj Hw) as [H1 H2]. split; [assumption|].
        intros Heq. specialize (H2 Heq). lia. }
    assert (Hb : larger w b x
                 = if (snd x >? snd b) && (snd x >=? w) then x else b)
      by reflexivity.
    rewrite Hb. clear Hb.
    destruct (Z.gtb_spec (snd x) (snd b)) as [Elt | Elt]; cbn [andb];
      [destruct (snd x >=? w) eqn:Ege|].
    + apply Z.geb_le in Ege.
      right. destruct (IH x) as [[Hr Hall] | (k & h & Hk & Hr & Hq & Hlt & Hmin)].
      * exists 0%nat, x. split; [reflexivity|]. split; [assumption|].
        split; [assumption|]. split; [lia|].
        intros j h' Hj Hw. split; [|lia].
        destruct j as [|j]; cbn [nth_error] in Hj.
        -- inversion Hj; subst. lia.
        -- apply Hall; [eapply nth_error_In; eassumption | assumption].
      * exists (S k), h. split; [assumption|]. split; [assumption|].
        split; [assumption|]. split; [lia|].
        apply Hshift; try assumption; lia.
    + assert (Hnq : snd x < w).
      { destruct (Z.geb_spec (snd x) w); [discriminate | lia]. }
      destruct (IH b) as [[Hr Hall] | (k & h & Hk & Hr & Hq & Hlt & Hmin)].
      * left. split; [assumption|].
        intros h [<- | Hin] Hw; [lia | now apply Hall].
      * right. exists (S k), h. split; [assumption|]. split; [assumption|].
        split; [assumption|]. split; [assumption|].
        apply Hshift; try assumption; lia.
    + destruct (IH b) as [[Hr Hall] | (k & h & Hk & Hr & Hq & Hlt & Hmin)].
      * left. split; [assumption|].
        intros h [<- | Hin] Hw; [lia | now apply Hall].
      * right. exists (S k), h. split; [assumption|]. split; [assumption|].
        split; [assumption|]. split; [assumption|].
        apply Hshift; try assumption; lia.
Qed.

(** While the test holds and the counter is a [uint16_t] below a bound of
    65536 or more, no amount of turns ends the loop. *)
Lemma worstFit_loop_wraps (fuel : nat) (i len : Z) (list : list Z) (b : Z * Z) :
  0 <= i < 65536 -> 65536 <= len * 2 ->
  worstFit_loop fuel i len w list b = Diverges.
Proof.
  revert i b. induction fuel as [|fuel IH]; intros i b Hi Hlen;
    cbn [worstFit_loop];
    (destruct (Z.ltb_spec i (len * 2)) as [_ | Hge]; [|lia]).
  - reflexivity.
  - apply IH; [|assumption]. unfold u16. apply Z.mod_pos_bound. lia.
Qed.

End WorstFit.

(** X1. Over an encodable hole list of at most 32767 holes [worstFit]
    returns, and what it returns is -1 when no hole is as long as the request
    and otherwise the start of a longest hole, the first of them in list
    order when several share that length; over holes (0,10), (20,2), (30,6) a
    request of 5 words gives 0. *)
Theorem worstFit_selects_largest_fit (w : Z) (hs : list extent) :
  encodable hs -> Vec.size hs <= 32767 ->
  (exists r, worstFit w (hole_list hs) = Returns r /\ selects_worst w hs r) /\
  worstFit 5 (hole_list [(0, 10); (20, 2); (30, 6)]) = Returns 0.
Proof.
  intros [Hc Hf] Hn. split; [|reflexivity].
  unfold worstFit, hole_list.
  assert (E : rd (u16 (Vec.size hs) :: holes_array hs) 0 = Vec.size hs).
  { unfold rd. cbn [Z.to_nat nth]. apply u16_small. unfold Vec.size in *. lia. }
  rewrite E. unfold Vec.size in *. rewrite Nat2Z.id.
  pose proof (worstFit_loop_fold w (u16 (Z.of_nat (List.length hs))) hs []
                (-1, -1) Hf) as L.
  cbn [List.length app] in L. change (1 + 2 * Z.of_nat 0) with 1 in L.
  rewrite L by exact Hn. cbn [bind].
  eexists. split; [reflexivity|].
  rewrite Forall_forall in Hf.
  destruct (fold_larger_spec w hs (-1, -1))
    as [[Hr Hall] | (k & b & Hk & Hr & Hq & Hlt & Hmax)]; rewrite Hr.
  - split; [reflexivity|].
    intros (h & Hin & Hw). exfalso.
    specialize (Hall h Hin Hw). specialize (Hf h Hin). cbn [snd] in Hall. lia.
  - split.
    + intros Hnone. exfalso.
      apply (Hnone b); [eapply nth_error_In; eassumption | exact Hq].
    + intros _. exists k, b. split; [assumption|]. split; [exact Hq|].
      split; [reflexivity|].
      intros j h Hj.
      destruct (Z.le_gt_cases w (snd h)) as [Hw | Hw].
      * apply (Hmax j h Hj Hw).
      * split; lia.
Qed.

Lemma worstFit_selects_largest_fit_witness :
  exists r,
    worstFit 5 (hole_list [(0, 10); (20, 2); (30, 6)]) = Returns r /\
    selects_worst 5 [(0, 10); (20, 2); (30, 6)] r.
Proof.
  assert (E : encodable [(0, 10); (20, 2); (30, 6)]).
  { split; [vm_compute; discriminate | repeat constructor; cbn; lia]. }
  assert (N : Vec.size [(0, 10); (20, 2); (30, 6)] <= 32767).
  { vm_compute. discriminate. }
  exact (proj1 (worstFit_selects_largest_fit 5 [(0, 10); (20, 2); (30, 6)] E N)).
Defined.

(** X2. Over an encodable hole list of 32768 holes or more [worstFit] never
    returns: its [uint16_t] counter wraps before it reaches the bound
    [holeListlength * 2]. *)
Theorem worstFit_never_returns_on_long_list (w : Z) (hs : list extent) :
  encodable hs -> 32768 <= Vec.size hs ->
  worstFit w (hole_list hs) = Diverges.
Proof.
  intros [Hc _] Hn. unfold worstFit, hole_list.
  assert (E : rd (u16 (Vec.size hs) :: holes_array hs) 0 = Vec.size hs).
  { unfold rd. cbn [Z.to_nat nth]. apply u16_small. unfold Vec.size in *. lia. }
  rewrite E. rewrite worstFit_loop_wraps by lia. reflexivity.
Qed.

Lemma worstFit_never_returns_on_long_list_witness :
  worstFit 1 (hole_list (repeat (0, 1) (Z.to_nat 32768))) = Diverges.
Proof.
  apply worstFit_never_returns_on_long_list.
  - split; [vm_compute; discriminate|].
    apply Forall_forall. intros x Hx. apply repeat_spec in Hx. subst x.
    cbn. lia.
  - vm_compute. discriminate.
Defined.

(** ** getList *)

(** X3. [getList] returns [nullptr] exactly when the backing store is empty;
    otherwise, for an encodable hole vector, the array has one entry for the
    count and two per hole: entry 0 is the number of holes and entries
    [2k+1] and [2k+2] are the start and the length of hole [k]. *)
Theorem getList_layout (m : MemoryManager) :
  (getList m = None <-> memory m = 0) /\
  (memory m <> 0 -> encodable (holes m) ->
   exists list,
     getList m = Some list /\
     Vec.size list = 2 * Vec.size (holes m) + 1 /\
     rd list 0 = Vec.size (holes m) /\
     forall k h, nth_error (holes m) k = Some h ->
       rd list (2 * Z.of_nat k + 1) = fst h /\
       rd list (2 * Z.of_nat k + 2) = snd h).
Proof.
  unfold getList. split.
  - destruct (Z.eqb_spec (memory m) 0) as [E | E]; split;
      intros H; try reflexivity; try assumption; try discriminate.
    contradiction.
  - intros Hm [Hc Hf].
    destruct (Z.eqb_spec (memory m) 0) as [|_]; [contradiction|].
    eexists. split; [reflexivity|]. unfold hole_list. split; [|split].
    + unfold Vec.size. cbn [List.length]. rewrite holes_array_length. lia.
    + unfold rd. cbn [Z.to_nat nth]. apply u16_small.
      unfold Vec.size in *. lia.
    + intros k h Hk.
      destruct (nth_error_split _ _ Hk) as (pre & post & Hholes & Hlen).
      rewrite Hholes in *. subst k.
      apply Forall_app in Hf as [_ Hf].
      inversion Hf as [|h' l' Hh _]; subst.
      pose proof (rd_after (u16 (Vec.size (pre ++ h :: post))) pre
                    (h :: post) 0) as R0.
      pose proof (rd_after (u16 (Vec.size (pre ++ h :: post))) pre
                    (h :: post) 1) as R1.
      cbn [holes_array nth] in R0, R1.
      change (Z.of_nat 0) with 0 in R0. rewrite Z.add_0_r in R0.
      change (Z.of_nat 1) with 1 in R1.
      rewrite (u16_small (fst h)) in R0 by tauto.
      rewrite (u16_small (snd h)) in R1 by tauto.
      split.
      * rewrite <- R0. f_equal. lia.
      * rewrite <- R1. f_equal. lia.
Qed.

Lemma getList_layout_witness :
  exists list,
    getList (initialize 10 (construct 4 bestFit 0)) = Some list /\
    Vec.size list = 2 * Vec.size (holes (initialize 10 (construct 4 bestFit 0))) + 1 /\
    rd list 0 = Vec.size (holes (initialize 10 (construct 4 bestFit 0))) /\
    forall k h,
      nth_error (holes (initialize 10 (construct 4 bestFit 0))) k = Some h ->
      rd list (2 * Z.of_nat k + 1) = fst h /\
      rd list (2 * Z.of_nat k + 2) = snd h.
Proof.
  apply (proj2 (getList_layout (initialize 10 (construct 4 bestFit 0)))).
  - cbn. discriminate.
  - split; [vm_compute; discriminate | repeat constructor; cbn; lia].
Defined.

(** ** getBitmap *)

Section Bitmap.

Lemma testbit_flag (b n : Z) :
  b = 0 \/ b = 1 -> Z.testbit b n = (b =? 1) && (n =? 0).
Proof.
  intros [-> | ->].
  - now rewrite Z.testbit_0_l.
  - cbn [Z.eqb Pos.eqb andb]. destruct (Z.eqb_spec n 0) as [-> | Hn].
    + reflexivity.
    + destruct n as [|n|n]; [contradiction | reflexivity | reflexivity].
Qed.

(** Bit [n] of the byte packed from flags placed at [j], [j+1], ... *)
Lemma pack_bits_testbit (bits : list Z) (j n : Z) :
  Forall (fun b => b = 0 \/ b = 1) bits -> 0 <= j -> 0 <= n ->
  Z.testbit (pack_bits bits j) n
  = (j <=? n) && (n <? j + Vec.size bits)
    && (nth (Z.to_nat (n - j)) bits 0 =? 1).
Proof.
  intros Hbits. revert j. induction Hbits as [|b bits Hb Hrest IH];
    intros j Hj Hn; cbn [pack_bits].
  - rewrite Z.testbit_0_l. unfold Vec.size. cbn [List.length Z.of_nat].
    destruct (Z.leb_spec j n), (Z.ltb_spec n (j + 0)); try reflexivity; lia.
  - rewrite Z.lor_spec, Z.shiftl_spec, IH by lia.
    rewrite (testbit_flag b (n - j) Hb).
    unfold Vec.size. cbn [List.length]. rewrite Nat2Z.inj_succ.
    destruct (Z.eqb_spec (n - j) 0) as [E | E].
    + replace n with j by lia. rewrite Z.sub_diag. cbn [Z.to_nat nth].
      destruct (Z.leb_spec (j + 1) j); [lia|].
      destruct (Z.leb_spec j j); [|lia].
      destruct (Z.ltb_spec j (j + Z.succ (Z.of_nat (List.length bits)))); [|lia].
      cbn [andb]. now rewrite andb_true_r, orb_false_r.
    + rewrite andb_false_r. cbn [orb].
      destruct (Z.leb_spec (j + 1) n), (Z.leb_spec j n); try lia; cbn [andb];
        try reflexivity.
      * replace (Z.to_nat (n - j)) with (S (Z.to_nat (n - (j + 1)))) by lia.
        cbn [nth]. f_equal.
        destruct (Z.ltb_spec n (j + 1 + Z.of_nat (List.length bits))),
                 (Z.ltb_spec n (j + Z.succ (Z.of_nat (List.length bits))));
          try reflexivity; lia.
Qed.

Lemma pack_bytes_layout (n : nat) (bm : list Z) (k : nat) :
  List.length bm = (8 * k)%nat -> (k <= n)%nat ->
  List.length (pack_bytes n bm) = k /\
  forall b, (b < k)%nat ->
    nth b (pack_bytes n bm) 0
    = u8 (pack_bits (firstn 8 (skipn (8 * b) bm)) 0).
Proof.
  revert bm k. induction n as [|n IH]; intros bm k Hlen Hk.
  - assert (k = 0%nat) by lia. subst k. split; [reflexivity | intros b Hb; lia].
  - destruct k as [|k].
    + destruct bm; [|discriminate]. split; [reflexivity | intros b Hb; lia].
    + destruct bm as [|x bm]; [discriminate|].
      cbn [pack_bytes].
      destruct (IH (skipn 8 (x :: bm)) k) as [L N];
        [rewrite length_skipn; lia | lia |].
      split; [cbn [List.length]; now rewrite L|].
      intros [|b] Hb.
      * reflexivity.
      * cbn [nth]. rewrite N by lia. rewrite skipn_skipn.
        do 4 f_equal. lia.
Qed.

Lemma Forall_part_firstn {A : Type} (P : A -> Prop) (n : nat) (l : list A) :
  Forall P l -> Forall P (firstn n l).
Proof.
  intros H. rewrite <- (firstn_skipn n l) in H.
  now apply Forall_app in H.
Qed.

Lemma Forall_part_skipn {A : Type} (P : A -> Prop) (n : nat) (l : list A) :
  Forall P l -> Forall P (skipn n l).
Proof.
  intros H. rewrite <- (firstn_skipn n l) in H.
  now apply Forall_app in H.
Qed.

End Bitmap.

(** X4. [getBitmap] returns [nullptr] exactly when the backing store is
    empty.  Otherwise, for a bitmap of [8 * k] flags, each 0 or 1, with
    [k <= 65535], it returns [k + 2] bytes: the first two are [k] in
    little-endian order, and bit [j] of byte [b] behind them is set exactly
    when flag [8 * b + j] is 1. *)
Theorem getBitmap_layout (m : MemoryManager) (k : Z) :
  (getBitmap m = None <-> memory m = 0) /\
  (memory m <> 0 -> Vec.size (bitmap m) = 8 * k -> k <= 65535 ->
   Forall (fun b => b = 0 \/ b = 1) (bitmap m) ->
   exists lo hi bytes,
     getBitmap m = Some (lo :: hi :: bytes) /\
     0 <= lo < 256 /\ 0 <= hi < 256 /\ lo + 256 * hi = k /\
     Vec.size bytes = k /\
     forall b j, 0 <= b < k -> 0 <= j < 8 ->
       0 <= rd bytes b < 256 /\
       Z.testbit (rd bytes b) j = (rd (bitmap m) (8 * b + j) =? 1)).
Proof.
  unfold getBitmap. split.
  - destruct (Z.eqb_spec (memory m) 0) as [E | E]; split;
      intros H; try reflexivity; try assumption; try discriminate.
    contradiction.
  - intros Hm Hlen Hk Hbits.
    destruct (Z.eqb_spec (memory m) 0) as [|_]; [contradiction|].
    assert (Hk0 : 0 <= k) by (unfold Vec.size in Hlen; lia).
    destruct (pack_bytes_layout (List.length (bitmap m)) (bitmap m) (Z.to_nat k))
      as [L N]; [unfold Vec.size in Hlen; lia | unfold Vec.size in Hlen; lia |].
    do 3 eexists. split; [reflexivity|].
    rewrite Hlen. replace (8 * k / 8) with k by (rewrite Z.mul_comm, Z.div_mul; lia).
    rewrite (u16_small k) by lia. rewrite Z.shiftr_0_r.
    rewrite Z.shiftr_div_pow2 by lia. change (2 ^ 8) with 256.
    unfold u8.
    split; [apply Z.mod_pos_bound; lia|].
    split; [apply Z.mod_pos_bound; lia|].
    split.
    { rewrite (Z.mod_small (k / 256)).
      - pose proof (Z.div_mod k 256). lia.
      - split; [apply Z.div_pos; lia | apply Z.div_lt_upper_bound; lia]. }
    split; [unfold Vec.size; rewrite L; lia|].
    intros b j Hb Hj. unfold rd.
    rewrite (N (Z.to_nat b)) by lia.
    split; [apply Z.mod_pos_bound; lia|].
    unfold u8. change 256 with (2 ^ 8).
    rewrite Z.mod_pow2_bits_low by lia.
    rewrite pack_bits_testbit; try lia.
    + unfold Vec.size. rewrite length_firstn, length_skipn.
      unfold Vec.size in Hlen.
      destruct (Z.leb_spec 0 j); [|lia].
      destruct (Z.ltb_spec j (0 + Z.of_nat (Nat.min 8 (List.length (bitmap m) - 8 * Z.to_nat b))));
        [|lia].
      cbn [andb]. rewrite Z.sub_0_r.
      rewrite nth_firstn.
      destruct (Nat.ltb_spec (Z.to_nat j) 8); [|lia].
      rewrite nth_skipn. do 2 f_equal. lia.
    + apply Forall_part_firstn, Forall_part_skipn, Hbits.
Qed.

Lemma getBitmap_layout_witness :
  exists lo hi bytes,
    getBitmap (initialize 10 (construct 4 bestFit 0)) = Some (lo :: hi :: bytes) /\
    0 <= lo < 256 /\ 0 <= hi < 256 /\ lo + 256 * hi = 2 /\
    Vec.size bytes = 2 /\
    forall b j, 0 <= b < 2 -> 0 <= j < 8 ->
      0 <= rd bytes b < 256 /\
      Z.testbit (rd bytes b) j
      = (rd (bitmap (initialize 10 (construct 4 bestFit 0))) (8 * b + j) =? 1).
Proof.
  apply (proj2 (getBitmap_layout (initialize 10 (construct 4 bestFit 0)) 2)).
  - cbn. discriminate.
  - reflexivity.
  - lia.
  - cbn. repeat constructor.
Defined.

(** ** The address scan of free, off the pool *)

Lemma find_offset_no_match (m : MemoryManager) (address : pointer) :
  1 <= wordSize m ->
  memory m = memSize m * wordSize m ->
  memory m < 4294967296 ->
  (forall k, 0 <= k < memSize m -> address <> Some (k * wordSize m)) ->
  forall (fuel : nat) (j acc : Z),
    0 <= j <= memSize m ->
    (Z.to_nat (memSize m - j) <= fuel)%nat ->
    find_offset fuel (j * wordSize m) m address acc = Returns acc.
Proof.
  intros Hws Hmem Hreach Hmiss.
  induction fuel as [|fuel IH]; intros j acc Hj Hfuel.
  - assert (j = memSize m) by lia. subst j.
    cbn [find_offset]. now rewrite Hmem, Z.ltb_irrefl.
  - cbn [find_offset].
    destruct (Z.ltb_spec (j * wordSize m) (memory m)) as [Hlt | Hge];
      [|reflexivity].
    assert (Hj' : j < memSize m) by (rewrite Hmem in Hlt; nia).
    assert (Hwrap : u32 (j * wordSize m + wordSize m) = (j + 1) * wordSize m).
    { unfold u32. rewrite Z.mod_small; nia. }
    rewrite Hwrap.
    assert (Hne : ptr_eqb (Some (j * wordSize m)) address = false).
    { destruct address as [off|]; [|reflexivity]. cbn [ptr_eqb].
      apply Z.eqb_neq. intros E. apply (Hmiss j); [lia | now rewrite E]. }
    rewrite Hne. apply IH; lia.
Qed.

(** X5. On a manager whose backing store is [memSize * wordSize] bytes with
    [wordSize >= 1] and fewer than 2^32 bytes, [free] of [nullptr], or of
    any pointer that is not the address of a word of the pool, does exactly
    what [free] of the pool's first word does: the scan leaves [wordOffset]
    at its initial 0. *)
Theorem free_foreign_pointer_is_free_of_word_0 (m : MemoryManager)
    (address : pointer) :
  1 <= wordSize m ->
  memory m = memSize m * wordSize m ->
  memory m < 4294967296 ->
  0 <= memSize m ->
  (forall k, 0 <= k < memSize m -> address <> Some (k * wordSize m)) ->
  free address m = free (Some 0) m.
Proof.
  intros Hws Hmem Hreach Hsize Hmiss. unfold free.
  pose proof (find_offset_no_match m address Hws Hmem Hreach Hmiss
                (Z.to_nat (memory m)) 0 0) as Ha.
  cbn [Z.mul] in Ha. rewrite Ha; [|lia | rewrite Hmem; apply Z2Nat.inj_le; nia].
  destruct (Z.eq_dec (memSize m) 0) as [E | E].
  - assert (Hm0 : memory m = 0) by (rewrite Hmem, E; reflexivity).
    rewrite Hm0. cbn [Z.to_nat find_offset]. rewrite Hm0. reflexivity.
  - pose proof (find_offset_word m 0 Hws Hmem Hreach) as Hb.
    cbn [Z.mul] in Hb. rewrite Hb by lia. reflexivity.
Qed.

Lemma free_foreign_pointer_is_free_of_word_0_witness :
  free None (initialize 10 (construct 4 bestFit 0))
  = free (Some 0) (initialize 10 (construct 4 bestFit 0)).
Proof.
  apply free_foreign_pointer_is_free_of_word_0; cbn; try lia; try reflexivity.
  intros k _. discriminate.
Defined.

Lemma find_offset_wraps (m : MemoryManager) (address : pointer) :
  4294967296 <= memory m ->
  forall (fuel : nat) (i acc : Z),
    0 <= i < 4294967296 ->
    find_offset fuel i m address acc = Diverges.
Proof.
  intros Hbig. induction fuel as [|fuel IH]; intros i acc Hi;
    cbn [find_offset];
    (destruct (Z.ltb_spec i (memory m)) as [_ | Hge]; [|lia]).
  - reflexivity.
  - apply IH. unfold u32. apply Z.mod_pos_bound. lia.
Qed.

(** X6. When the backing store has 2^32 bytes or more, [free] never returns,
    whatever the pointer: the [unsigned] counter of its scan stays below
    [memory.size()]. *)
Theorem free_never_returns_on_large_store (m : MemoryManager)
    (address : pointer) :
  4294967296 <= memory m -> free address m = Diverges.
Proof.
  intros Hbig. unfold free.
  rewrite (find_offset_wraps m address Hbig) by lia. reflexivity.
Qed.

Lemma free_never_returns_on_large_store_witness :
  free (Some 0) (initialize 65535 (construct 65538 bestFit 0)) = Diverges.
Proof.
  apply free_never_returns_on_large_store. cbn [initialize construct shutdown
    memory wordSize]. vm_compute. discriminate.
Defined.

(** ** What allocate and free leave alone *)

Lemma fill_size (v v' : list Z) (start len x : Z) :
  Vec.fill v start len x = Returns v' -> Vec.size v' = Vec.size v.
Proof.
  unfold Vec.fill.
  destruct ((0 <=? start) && (0 <=? len) && (start + len <=? Vec.size v))
    eqn:E; [|discriminate].
  apply andb_true_iff in E as [E E3]. apply andb_true_iff in E as [E1 E2].
  apply Z.leb_le in E1, E2, E3.
  intros H. injection H as <-.
  unfold Vec.size in *. rewrite !length_app, repeat_length.
  rewrite length_firstn, length_skipn. lia.
Qed.

(** What [allocate] and [free] leave as it was. *)
Lemma allocate_free_frame_lemma (m m' : MemoryManager) :
  (forall n r, allocate n m = Returns (r, m') -> same_frame m m') /\
  (forall address, free address m = Returns m' -> same_frame m m').
Proof.
  split.
  - intros n r. unfold allocate, getList.
    destruct ((n >? memSize m * wordSize m) || (n <? 0) || (memory m =? 0)).
    { intros E. injection E as _ <-. repeat split. }
    destruct (memory m =? 0); [discriminate|].
    destruct (allocator m _ _ =? -1).
    { intros E. injection E as _ <-. repeat split. }
    destruct (Vec.at_ (holes m) _) as [h| |]; cbn [bind]; try discriminate.
    destruct (if snd h =? _ then _ else _) as [holes'| |]; cbn [bind];
      try discriminate.
    destruct (Vec.fill (bitmap m) _ _ 1) as [bitmap'| |] eqn:F; cbn [bind];
      try discriminate.
    destruct (_ <? memory m); [|discriminate].
    intros E. injection E as _ <-.
    repeat split. cbn [bitmap]. eapply fill_size. exact F.
  - intros address. unfold free.
    destruct (find_offset _ 0 m address 0) as [wordOffset| |]; cbn [bind];
      try discriminate.
    destruct (remove_partition (partitions m) wordOffset) as [length partitions'].
    destruct (coalesce (holes m) 0 wordOffset length (wordOffset, length) (-1) (-1))
      as [[combine erase0] erase1].
    destruct (if negb (erase0 =? -1) then _ else _) as [holes1| |]; cbn [bind];
      try discriminate.
    destruct (if negb (erase1 =? -1) then _ else _) as [holes2| |]; cbn [bind];
      try discriminate.
    destruct (Vec.fill (bitmap m) wordOffset length 0) as [bitmap'| |] eqn:F;
      cbn [bind]; try discriminate.
    intros E. injection E as <-.
    repeat split. cbn [bitmap]. eapply fill_size. exact F.
Qed.

(** X7. Whatever they return, [allocate] and [free] leave the size of the
    backing store, the word size, the word count, the allocator and the
    length of the bitmap as they were. *)
Theorem allocate_free_same_frame (m m' : MemoryManager) :
  (forall n r, allocate n m = Returns (r, m') -> same_frame m m') /\
  (forall address, free address m = Returns m' -> same_frame m m').
Proof. exact (allocate_free_frame_lemma m m'). Qed.

Lemma allocate_free_same_frame_witness :
  exists r m',
    allocate 8 (initialize 10 (construct 4 bestFit 0)) = Returns (r, m') /\
    same_frame (initialize 10 (construct 4 bestFit 0)) m'.
Proof.
  destruct (allocate 8 (initialize 10 (construct 4 bestFit 0)))
    as [[r m']| |] eqn:Ha.
  - exists r, m'. split; [reflexivity|].
    exact (proj1 (allocate_free_same_frame
                    (initialize 10 (construct 4 bestFit 0)) m') 8 r Ha).
  - exfalso. vm_compute in Ha. discriminate.
  - exfalso. vm_compute in Ha. discriminate.
Defined.

(** ** initialize and the uninitialized manager *)

(** The members after [initialize], for a word count [n >= 0]. *)
Lemma initialize_fields (n : Z) (m : MemoryManager) :
  0 <= n ->
  memSize (initialize n m) = Z.min n 65535 /\
  memory (initialize n m) = Z.min n 65535 * wordSize m /\
  holes (initialize n m) = [(0, Z.min n 65535)] /\
  partitions (initialize n m) = [] /\
  Vec.size (bitmap (initialize n m)) = 8 * ((Z.min n 65535 + 7) / 8) /\
  Forall (fun b => b = 0) (bitmap (initialize n m)) /\
  wordSize (initialize n m) = wordSize m /\
  allocator (initialize n m) = allocator m.
Proof.
  intros Hn. unfold initialize, shutdown.
  cbn [memSize memory holes partitions bitmap wordSize allocator Vec.push_back app].
  assert (Hmin : (if n >? 65535 then 65535 else n) = Z.min n 65535).
  { destruct (Z.gtb_spec n 65535); lia. }
  rewrite Hmin. set (k := Z.min n 65535).
  assert (Hk : 0 <= k) by (unfold k; lia).
  repeat split.
  - unfold Vec.size. rewrite repeat_length.
    pose proof (Z.mod_pos_bound k 8 ltac:(lia)) as Hmod.
    pose proof (Z.div_mod k 8 ltac:(lia)) as Hdiv.
    assert (Hq : (k + 7) / 8 = if k mod 8 =? 0 then k / 8 else k / 8 + 1).
    { destruct (Z.eqb_spec (k mod 8) 0) as [E | E].
      - symmetry. apply (Z.div_unique (k + 7) 8 (k / 8) 7); lia.
      - symmetry. apply (Z.div_unique (k + 7) 8 (k / 8 + 1) (k mod 8 - 1)); lia. }
    rewrite Hq. destruct (Z.eqb_spec (k mod 8) 0); lia.
  - apply Forall_forall. intros x Hx. now apply repeat_spec in Hx.
Qed.

(** X8. For a word count [n >= 0], [initialize] clamps the pool to
    [min n 65535] words and rebuilds every tracking structure from nothing,
    whatever the manager held before: one hole spanning the pool, no
    partition, and a bitmap of zeros whose length is the least multiple of 8
    that is at least the word count; the word size and the allocator are
    kept. *)
Theorem initialize_layout (n : Z) (m : MemoryManager) :
  0 <= n ->
  memSize (initialize n m) = Z.min n 65535 /\
  memory (initialize n m) = Z.min n 65535 * wordSize m /\
  holes (initialize n m) = [(0, Z.min n 65535)] /\
  partitions (initialize n m) = [] /\
  Vec.size (bitmap (initialize n m)) = 8 * ((Z.min n 65535 + 7) / 8) /\
  Forall (fun b => b = 0) (bitmap (initialize n m)) /\
  wordSize (initialize n m) = wordSize m /\
  allocator (initialize n m) = allocator m.
Proof. exact (initialize_fields n m). Qed.

Lemma initialize_layout_witness :
  memSize (initialize 70000 (construct 4 bestFit 0)) = Z.min 70000 65535 /\
  memory (initialize 70000 (construct 4 bestFit 0))
  = Z.min 70000 65535 * wordSize (construct 4 bestFit 0) /\
  holes (initialize 70000 (construct 4 bestFit 0)) = [(0, Z.min 70000 65535)] /\
  partitions (initialize 70000 (construct 4 bestFit 0)) = [] /\
  Vec.size (bitmap (initialize 70000 (construct 4 bestFit 0)))
  = 8 * ((Z.min 70000 65535 + 7) / 8) /\
  Forall (fun b => b = 0) (bitmap (initialize 70000 (construct 4 bestFit 0))) /\
  wordSize (initialize 70000 (construct 4 bestFit 0))
  = wordSize (construct 4 bestFit 0) /\
  allocator (initialize 70000 (construct 4 bestFit 0))
  = allocator (construct 4 bestFit 0).
Proof. apply initialize_layout. lia. Defined.

(** X9. On a manager that has been shut down (or never initialized) [free]
    returns, whatever the pointer, and pushes the empty hole (0, 0) into the
    hole vector; the manager still answers as uninitialized ([getList] and
    [getBitmap] return [nullptr], [dumpMemoryMap] returns -1, [allocate]
    returns [nullptr]), and the next [initialize] discards that hole. *)
Theorem free_on_uninitialized_manager (m : MemoryManager) (address : pointer)
    (n fd : Z) :
  exists m',
    free address (shutdown m) = Returns m' /\
    holes m' = [(0, 0)] /\ partitions m' = [] /\ bitmap m' = [] /\
    memory m' = 0 /\
    getList m' = None /\ getBitmap m' = None /\
    fst (dumpMemoryMap fd m') = -1 /\
    allocate n m' = Returns (None, m') /\
    initialize n m' = initialize n m.
Proof.
  eexists. split; [reflexivity|].
  cbn [holes partitions bitmap memory].
  repeat split; try reflexivity.
  apply allocate_rejects. left. reflexivity.
Qed.

(** ** allocate when no hole fits *)

(** X10. With [bestFit] as its allocator, on an initialized manager whose
    holes are all shorter than the [sizeInBytes / wordSize] words of an
    otherwise valid request, [allocate] returns [nullptr] and leaves the
    manager exactly as it was. *)
Theorem allocate_no_fitting_hole (n : Z) (m : MemoryManager) :
  allocator m = bestFit -> memory m <> 0 -> 1 <= wordSize m ->
  memSize m <= 65535 -> 0 <= n <= memSize m * wordSize m ->
  encodable (holes m) ->
  (forall h, In h (holes m) -> snd h < n / wordSize m) ->
  allocate n m = Returns (None, m).
Proof.
  intros Ha Hm Hws Hsize Hn Henc Hshort.
  unfold allocate, getList, ceil.
  destruct (Z.gtb_spec n (memSize m * wordSize m)) as [|_]; [lia|].
  destruct (Z.ltb_spec n 0) as [|_]; [lia|].
  destruct (Z.eqb_spec (memory m) 0) as [|_]; [contradiction|].
  cbn [orb].
  assert (Hw : 0 <= n / wordSize m <= memSize m).
  { split; [apply Z.div_pos; lia | apply Z.div_le_upper_bound; lia]. }
  rewrite u32_small by lia.
  rewrite Ha, (bestFit_fold _ _ Henc).
  destruct (fold_better_spec (n / wordSize m) (holes m) (-1, 65536))
    as [[Hr _] | (k & h & Hk & _ & Hq & _)].
  - rewrite Hr. reflexivity.
  - exfalso. apply nth_error_In in Hk. specialize (Hshort h Hk). lia.
Qed.

Lemma allocate_no_fitting_hole_witness :
  allocate 4
    (mkMemoryManager 10 [(8, 2)] [(0, 8)]
       [1; 1; 1; 1; 1; 1; 1; 1; 0; 0; 0; 0; 0; 0; 0; 0] 1 10 bestFit)
  = Returns
      (None,
       mkMemoryManager 10 [(8, 2)] [(0, 8)]
         [1; 1; 1; 1; 1; 1; 1; 1; 0; 0; 0; 0; 0; 0; 0; 0] 1 10 bestFit).
Proof.
  apply allocate_no_fitting_hole; cbn [allocator memory wordSize memSize holes];
    try reflexivity; try lia.
  - split; [vm_compute; discriminate | repeat constructor; cbn; lia].
  - intros h [<- | []]. vm_compute. reflexivity.
Defined.

(** ** Well-formed managers *)

(** *** Counting the extents over a word *)

Lemma cover_count_app (l1 l2 : list extent) (i : Z) :
  cover_count (l1 ++ l2) i = cover_count l1 i + cover_count l2 i.
Proof.
  induction l1 as [|e l1 IH]; cbn [app cover_count]; [reflexivity|].
  rewrite IH. lia.
Qed.

Lemma cover_count_nonneg (l : list extent) (i : Z) : 0 <= cover_count l i.
Proof.
  induction l as [|e l IH]; cbn [cover_count]; [lia|].
  destruct (coversb e i); lia.
Qed.

Lemma cover_count_In (l : list extent) (e : extent) (i : Z) :
  In e l -> coversb e i = true -> 1 <= cover_count l i.
Proof.
  induction l as [|x l IH]; intros Hin Hc; [destruct Hin|].
  cbn [cover_count]. pose proof (cover_count_nonneg l i).
  destruct Hin as [-> | Hin].
  - rewrite Hc. lia.
  - specialize (IH Hin Hc). destruct (coversb x i); lia.
Qed.

Lemma cover_count_zero (l : list extent) (i : Z) :
  (forall e, In e l -> coversb e i = false) -> cover_count l i = 0.
Proof.
  induction l as [|x l IH]; intros H; cbn [cover_count]; [reflexivity|].
  rewrite (H x (or_introl eq_refl)), IH; [reflexivity|].
  intros e He. apply H. now right.
Qed.

Lemma cover_count_pos (l : list extent) (i : Z) :
  0 < cover_count l i -> exists e, In e l /\ coversb e i = true.
Proof.
  induction l as [|x l IH]; cbn [cover_count]; [lia|].
  destruct (coversb x i) eqn:E.
  - intros _. exists x. split; [now left | assumption].
  - intros H. destruct (IH ltac:(lia)) as (e & He & Hc).
    exists e. split; [now right | assumption].
Qed.

Lemma cover_count_insert (x : extent) (l : list extent) (i : Z) :
  cover_count (insert_sorted x l) i = cover_count (x :: l) i.
Proof.
  induction l as [|y l IH]; cbn [insert_sorted]; [reflexivity|].
  destruct (pair_ltb y x); [|reflexivity].
  cbn [cover_count] in *. rewrite IH. lia.
Qed.

Lemma cover_count_sort (l : list extent) (i : Z) :
  cover_count (sort l) i = cover_count l i.
Proof.
  induction l as [|x l IH]; [reflexivity|].
  unfold sort in *. cbn [fold_right]. rewrite cover_count_insert.
  cbn [cover_count]. now rewrite IH.
Qed.

Lemma coversb_true (e : extent) (i : Z) :
  coversb e i = true <-> fst e <= i < fst e + snd e.
Proof.
  unfold coversb. rewrite andb_true_iff, Z.leb_le, Z.ltb_lt. tauto.
Qed.

Lemma coversb_false (e : extent) (i : Z) :
  coversb e i = false <-> i < fst e \/ fst e + snd e <= i.
Proof.
  unfold coversb. rewrite andb_false_iff, Z.leb_gt, Z.ltb_ge. tauto.
Qed.

(** A hole and a partition of a well-formed manager share no word. *)
Lemma wf_disjoint (m : MemoryManager) (h p : extent) :
  wf m -> In h (holes m) -> In p (partitions m) ->
  fst h + snd h <= fst p \/ fst p + snd p <= fst h.
Proof.
  intros W Hh Hp.
  pose proof (wf_hole_range m W) as Rh. pose proof (wf_partition_range m W) as Rp.
  rewrite Forall_forall in Rh, Rp. specialize (Rh h Hh). specialize (Rp p Hp).
  destruct (Z.le_gt_cases (fst h + snd h) (fst p)) as [|H1]; [now left|].
  destruct (Z.le_gt_cases (fst p + snd p) (fst h)) as [|H2]; [now right|].
  exfalso.
  pose proof (wf_tiling m W (Z.max (fst h) (fst p)) ltac:(lia)) as T.
  pose proof (cover_count_In (holes m) h (Z.max (fst h) (fst p)) Hh
                ltac:(apply coversb_true; lia)).
  pose proof (cover_count_In (partitions m) p (Z.max (fst h) (fst p)) Hp
                ltac:(apply coversb_true; lia)).
  lia.
Qed.

(** Separated holes inside a pool of [N] words, all at or above [lo], are at
    most [N - lo] many. *)
Lemma separated_length (N : Z) (l : list extent) :
  separated l ->
  Forall (fun h => 0 <= fst h /\ 1 <= snd h /\ fst h + snd h <= N) l ->
  forall lo, (forall h, In h l -> lo <= fst h) ->
    Vec.size l <= Z.max 0 (N - lo).
Proof.
  unfold Vec.size. induction 1 as [|x l Hx Hl IH]; intros R lo Hlo;
    cbn [List.length]; [lia|].
  inversion R as [|x' l' Rx Rl]; subst.
  specialize (IH Rl (fst x + 1)).
  specialize (Hlo x (or_introl eq_refl)).
  rewrite Nat2Z.inj_succ.
  assert (Z.of_nat (List.length l) <= Z.max 0 (N - (fst x + 1))).
  { apply IH. intros h Hh. specialize (Hx h Hh). lia. }
  lia.
Qed.

Lemma wf_clean (m : MemoryManager) : wf m -> clean m.
Proof.
  intros W. pose proof W as [Hws Hmem Hreach Hsize Hsep Rh Rp T Hbs Hb].
  constructor; try assumption.
  - pose proof (separated_length (memSize m) (holes m) Hsep Rh 0) as L.
    rewrite Forall_forall in Rh.
    specialize (L (fun h Hh => proj1 (Rh h Hh))). lia.
  - intros p h Hp Hh E.
    rewrite Forall_forall in Rh, Rp.
    specialize (Rh h Hh). specialize (Rp p Hp).
    destruct (wf_disjoint m h p W Hh Hp); lia.
Qed.

(** *** Separated vectors in two parts *)

Lemma separated_app_iff (l1 l2 : list extent) :
  separated (l1 ++ l2) <->
  separated l1 /\ separated l2 /\
  (forall a b, In a l1 -> In b l2 -> fst a + snd a < fst b).
Proof.
  induction l1 as [|x l1 IH]; cbn [app].
  - split.
    + intros H. split; [constructor|]. split; [assumption|]. intros a b [].
    + tauto.
  - split.
    + intros H. inversion H as [|x' l' Hx Hl]; subst.
      apply IH in Hl as (H1 & H2 & H12).
      split; [|split].
      * constructor; [|assumption].
        intros y Hy. apply Hx, in_or_app. now left.
      * assumption.
      * intros a b [<- | Ha] Hb; [apply Hx, in_or_app; now right|].
        now apply H12.
    + intros (H1 & H2 & H12). inversion H1 as [|x' l' Hx Hl]; subst.
      constructor.
      * intros y Hy. apply in_app_or in Hy as [Hy | Hy];
          [now apply Hx | apply H12; [now left | assumption]].
      * apply IH. split; [assumption|]. split; [assumption|].
        intros a b Ha Hb. apply H12; [now right | assumption].
Qed.

Lemma separated_one (x : extent) : separated [x].
Proof. constructor; [intros y [] | constructor]. Qed.

(** *** The bitmap after a fill *)

Lemma fill_rd (v v' : list Z) (start len x i : Z) :
  Vec.fill v start len x = Returns v' -> 0 <= i < Vec.size v ->
  rd v' i = (if (start <=? i) && (i <? start + len) then x else rd v i).
Proof.
  unfold Vec.fill.
  destruct ((0 <=? start) && (0 <=? len) && (start + len <=? Vec.size v))
    eqn:E; [|discriminate].
  apply andb_true_iff in E as [E E3]. apply andb_true_iff in E as [E1 E2].
  apply Z.leb_le in E1, E2, E3.
  intros H Hi. injection H as <-. unfold rd, Vec.size in *.
  destruct (Z.leb_spec start i) as [Hs | Hs]; cbn [andb].
  - rewrite app_nth2 by (rewrite length_firstn; lia).
    rewrite length_firstn.
    destruct (Z.ltb_spec i (start + len)) as [Hl | Hl].
    + rewrite app_nth1 by (rewrite repeat_length; lia).
      apply nth_repeat_lt. lia.
    + rewrite app_nth2 by (rewrite repeat_length; lia).
      rewrite repeat_length, nth_skipn. f_equal. lia.
  - rewrite app_nth1 by (rewrite length_firstn; lia).
    rewrite nth_firstn.
    destruct (Nat.ltb_spec (Z.to_nat i) (Z.to_nat start)); [reflexivity | lia].
Qed.

(** *** allocate on a well-formed manager *)

(** The manager a successful [allocate] of at least one word returns, on a
    clean manager with [bestFit]. *)
Lemma allocate_shape (m m1 : MemoryManager) (n p : Z) :
  clean m -> allocator m = bestFit -> wordSize m <= n ->
  allocate n m = Returns (Some p, m1) ->
  exists pre h post bm1,
    holes m = pre ++ h :: post /\
    1 <= n / wordSize m <= snd h /\
    p = fst h * wordSize m /\
    Vec.fill (bitmap m) (fst h) (n / wordSize m) 1 = Returns bm1 /\
    m1 = mkMemoryManager (memory m)
           (if snd h =? n / wordSize m then pre ++ post
            else pre ++ (fst h + n / wordSize m, snd h - n / wordSize m)
                   :: post)
           (sort (Vec.push_back (partitions m) (fst h, n / wordSize m)))
           bm1 (wordSize m) (memSize m) (allocator m).
Proof.
  intros C Halloc Hn Ha.
  pose proof (clean_encodable m C) as Henc.
  destruct C as [Hws Hmem Hreach Hsize Hcount Hsep Hrange Hparts Hbm].
  unfold allocate, getList, ceil in Ha.
  destruct ((n >? memSize m * wordSize m) || (n <? 0) || (memory m =? 0))
    eqn:G; [discriminate|].
  apply orb_false_iff in G as [G Gmem]. apply orb_false_iff in G as [Gcap _].
  rewrite Gmem in Ha.
  assert (Hcap : n <= memSize m * wordSize m).
  { destruct (Z.gtb_spec n (memSize m * wordSize m)); [discriminate | lia]. }
  set (w := n / wordSize m) in *.
  assert (Hw : 1 <= w <= memSize m).
  { unfold w. split.
    - apply Z.div_le_lower_bound; lia.
    - apply Z.div_le_upper_bound; lia. }
  rewrite (u32_small w) in Ha by lia.
  rewrite Halloc in Ha.
  destruct (Z.eqb_spec (bestFit w (hole_list (holes m))) (-1)) as [|Hfit];
    [discriminate|].
  destruct (bestFit_found w (holes m) Henc Hfit) as (k & h & Hk & Hbest & Hq).
  rewrite Hbest in Ha.
  destruct (nth_error_split _ _ Hk) as (pre & post & Hholes & Hlen).
  rewrite Hholes in Hsep, Hrange, Ha.
  destruct (separated_app pre post h Hsep) as (Hpre & Hpost & _).
  apply Forall_app in Hrange as [Rpre Rh].
  inversion Rh as [|h' l' Hh Rpost]; subst h' l'.
  rewrite Forall_forall in Rpre, Rpost.
  assert (Hidx : hole_index (pre ++ h :: post) (fst h) = Vec.size pre).
  { unfold hole_index. rewrite find_index_app.
    - reflexivity.
    - intros a Ha'. rewrite u32_small by lia.
      specialize (Hpre a Ha'). specialize (Rpre a Ha'). lia.
    - rewrite u32_small by lia. reflexivity. }
  rewrite Hidx, at_app in Ha. cbn [bind] in Ha.
  assert (Hset : (if snd h =? w
                  then Vec.erase (pre ++ h :: post) (Vec.size pre)
                  else Vec.set (pre ++ h :: post) (Vec.size pre)
                         (u32 (fst h + w), u32 (snd h - w)))
                 = Returns (if snd h =? w then pre ++ post
                            else pre ++ (fst h + w, snd h - w) :: post)).
  { destruct (snd h =? w); [apply erase_app|].
    rewrite set_app, !u32_small by lia. reflexivity. }
  rewrite Hset in Ha. cbn [bind] in Ha.
  destruct (fill_in_range (bitmap m) (fst h) w 1) as (bm1 & Hfill & Hbm1);
    [lia | lia | lia |].
  rewrite Hfill in Ha. cbn [bind] in Ha.
  assert (Hoff : u32 (fst h * wordSize m) = fst h * wordSize m)
    by (apply u32_small; nia).
  rewrite Hoff in Ha.
  destruct (Z.ltb_spec (fst h * wordSize m) (memory m)) as [_ | Hge];
    [|exfalso; nia].
  injection Ha as <- <-.
  exists pre, h, post, bm1. rewrite (u32_small (fst h)) by lia.
  split; [exact Hholes|]. split; [lia|]. split; [reflexivity|].
  split; [exact Hfill | rewrite Halloc; reflexivity].
Qed.

Ltac cases_coversb :=
  repeat match goal with
         | |- context [coversb ?e ?i] =>
             let E := fresh "E" in
             destruct (coversb e i) eqn:E;
             [apply coversb_true in E | apply coversb_false in E];
             cbn [fst snd] in E
         | H : context [coversb ?e ?i] |- _ =>
             let E := fresh "E" in
             destruct (coversb e i) eqn:E;
             [apply coversb_true in E | apply coversb_false in E];
             cbn [fst snd] in E
         end.

Lemma allocate_keeps_wf (m m1 : MemoryManager) (n p : Z) :
  wf m -> allocator m = bestFit -> wordSize m <= n ->
  allocate n m = Returns (Some p, m1) -> wf m1.
Proof.
  intros W Halloc Hn Ha.
  destruct (allocate_shape m m1 n p (wf_clean m W) Halloc Hn Ha)
    as (pre & h & post & bm1 & Hholes & Hw & _ & Hfill & ->).
  destruct W as [Hws Hmem Hreach Hsize Hsep Rh Rp T Hbs Hb].
  set (w := n / wordSize m) in *.
  rewrite Hholes in *.
  pose proof Rh as Rh'. apply Forall_app in Rh' as [Rpre Rhp].
  inversion Rhp as [|h' l' Hh Rpost]; subst h' l'.
  assert (Hsep' : separated (pre ++ [h] ++ post)) by exact Hsep.
  apply separated_app_iff in Hsep' as (Spre & Shp & Cross).
  apply (separated_app_iff [h] post) in Shp as (_ & Spost & Chp).
  assert (Hcnt : forall i,
             cover_count (if snd h =? w then pre ++ post
                          else pre ++ (fst h + w, snd h - w) :: post) i
             = cover_count (pre ++ h :: post) i
               - (if coversb (fst h, w) i then 1 else 0)).
  { intros i. destruct (Z.eqb_spec (snd h) w) as [E | E];
      rewrite !cover_count_app; cbn [cover_count]; cases_coversb; lia. }
  constructor; cbn [memory holes partitions bitmap wordSize memSize];
    try assumption.
  - (* the holes stay separated *)
    destruct (Z.eqb_spec (snd h) w) as [E | E].
    + apply separated_app_iff. split; [assumption|]. split; [assumption|].
      intros a b Ha' Hb'. apply Cross; [assumption | now right].
    + apply separated_app_iff. split; [assumption|]. split.
      * constructor; [|assumption].
        intros y Hy. specialize (Chp h y (or_introl eq_refl) Hy).
        cbn [fst snd]. lia.
      * intros a b Ha' [<- | Hb'].
        -- specialize (Cross a h Ha' (or_introl eq_refl)). cbn [fst]. lia.
        -- apply Cross; [assumption | now right].
  - (* and inside the pool *)
    destruct (Z.eqb_spec (snd h) w) as [E | E].
    + apply Forall_app. split; assumption.
    + apply Forall_app. split; [assumption|].
      constructor; [cbn [fst snd]; lia | assumption].
  - (* the partitions are inside the pool *)
    apply Forall_forall. intros q Hq. apply (proj1 (In_sort _ _)) in Hq.
    unfold Vec.push_back in Hq. apply in_app_or in Hq as [Hq | [<- | []]].
    + rewrite Forall_forall in Rp. now apply Rp.
    + cbn [fst snd]. lia.
  - (* every word in exactly one extent *)
    intros i Hi. specialize (T i Hi).
    rewrite Hcnt, cover_count_sort. unfold Vec.push_back.
    rewrite (cover_count_app (partitions m)). cbn [cover_count]. lia.
  - (* the bitmap has a flag per word *)
    rewrite (fill_size _ _ _ _ _ Hfill). assumption.
  - (* set exactly on the words of partitions *)
    intros i Hi. rewrite (fill_size _ _ _ _ _ Hfill) in Hi.
    rewrite (fill_rd _ _ _ _ _ i Hfill Hi), (Hb i Hi).
    rewrite cover_count_sort. unfold Vec.push_back.
    rewrite (cover_count_app (partitions m)). cbn [cover_count].
    pose proof (cover_count_nonneg (partitions m) i) as Hnn.
    unfold coversb. cbn [fst snd].
    destruct ((fst h <=? i) && (i <? fst h + w)).
    + destruct (Z.ltb_spec 0 (cover_count (partitions m) i + (1 + 0)));
        [reflexivity | lia].
    + now rewrite !Z.add_0_r.
Qed.

(** *** initialize *)

Lemma initialize_wf (n : Z) (m : MemoryManager) :
  1 <= n -> 1 <= wordSize m -> Z.min n 65535 * wordSize m < 4294967296 ->
  wf (initialize n m).
Proof.
  intros Hn Hws Hreach.
  destruct (initialize_fields n m ltac:(lia))
    as (Hsize & Hmem & Hholes & Hparts & Hbs & Hzero & Hw & _).
  set (k := Z.min n 65535) in *. assert (Hk : 1 <= k <= 65535) by (unfold k; lia).
  constructor; rewrite ?Hsize, ?Hmem, ?Hholes, ?Hparts, ?Hw; try lia.
  - apply separated_one.
  - repeat constructor; cbn [fst snd]; lia.
  - constructor.
  - intros i Hi. cbn [cover_count]. unfold coversb. cbn [fst snd].
    destruct (Z.leb_spec 0 i), (Z.ltb_spec i (0 + k)); cbn [andb]; lia.
  - rewrite Hbs. pose proof (Z.div_mod (k + 7) 8 ltac:(lia)).
    pose proof (Z.mod_pos_bound (k + 7) 8 ltac:(lia)). lia.
  - intros i Hi. cbn [cover_count Z.ltb Z.compare].
    rewrite Forall_forall in Hzero. apply Hzero.
    unfold rd. apply nth_In. unfold Vec.size in Hi. lia.
Qed.

(** *** What a well-formed manager satisfies *)

Lemma separated_nth (l : list extent) :
  separated l ->
  forall i j a b, (i < j)%nat ->
    nth_error l i = Some a -> nth_error l j = Some b ->
    fst a + snd a < fst b.
Proof.
  induction 1 as [|x l Hx Hl IH]; intros i j a b Hij Hi Hj.
  - destruct i; discriminate.
  - destruct j as [|j]; [lia|]. cbn [nth_error] in Hj.
    destruct i as [|i]; cbn [nth_error] in Hi.
    + injection Hi as <-. apply Hx. eapply nth_error_In. eassumption.
    + apply (IH i j a b); [lia | assumption ..].
Qed.

Lemma cover_count_one (l : list extent) (i : Z) :
  cover_count l i = 1 ->
  exists k,
    (exists e, nth_error l k = Some e /\ covers e i) /\
    forall k' e', nth_error l k' = Some e' -> covers e' i -> k' = k.
Proof.
  induction l as [|x l IH]; cbn [cover_count]; [discriminate|].
  destruct (coversb x i) eqn:E.
  - intros H. assert (H0 : cover_count l i = 0) by lia.
    exists 0%nat. split.
    + exists x. split; [reflexivity | now apply coversb_true].
    + intros [|k'] e' Hk Hc; [reflexivity|]. exfalso.
      cbn [nth_error] in Hk. apply nth_error_In in Hk.
      pose proof (cover_count_In l e' i Hk (proj2 (coversb_true e' i) Hc)).
      lia.
  - intros H. destruct (IH ltac:(lia)) as (k & (e & Hk & Hc) & Huniq).
    exists (S k). split.
    + exists e. split; assumption.
    + intros [|k'] e' Hk' Hc'; cbn [nth_error] in Hk'.
      * injection Hk' as <-. apply coversb_true in Hc'. congruence.
      * f_equal. now apply (Huniq k' e').
Qed.

Lemma wf_non_adjacent (m : MemoryManager) : wf m -> non_adjacent (holes m).
Proof.
  intros W i j a b Hij Hi Hj.
  pose proof (wf_hole_range m W) as R. rewrite Forall_forall in R.
  pose proof (R a (nth_error_In _ _ Hi)). pose proof (R b (nth_error_In _ _ Hj)).
  destruct (Nat.lt_ge_cases i j) as [Hlt | Hge].
  - pose proof (separated_nth _ (wf_holes m W) i j a b Hlt Hi Hj). lia.
  - pose proof (separated_nth _ (wf_holes m W) j i b a ltac:(lia) Hj Hi). lia.
Qed.

Lemma wf_ascending (m : MemoryManager) : wf m -> ascending (holes m).
Proof.
  intros W i j a b Hij Hi Hj.
  pose proof (wf_hole_range m W) as R. rewrite Forall_forall in R.
  pose proof (R a (nth_error_In _ _ Hi)).
  destruct (Nat.eq_dec i j) as [-> | Hne].
  - rewrite Hi in Hj. injection Hj as <-. lia.
  - pose proof (separated_nth _ (wf_holes m W) i j a b ltac:(lia) Hi Hj). lia.
Qed.

Lemma wf_tiles (m : MemoryManager) :
  wf m -> tiles (memSize m) (holes m) (partitions m).
Proof.
  intros W i Hi. apply cover_count_one.
  rewrite cover_count_app. now apply (wf_tiling m W).
Qed.

Lemma wf_bitmap_faithful (m : MemoryManager) : wf m -> bitmap_faithful m.
Proof.
  intros W i Hi. rewrite (wf_bitmap m W i Hi).
  pose proof (cover_count_nonneg (partitions m) i).
  destruct (Z.ltb_spec 0 (cover_count (partitions m) i)) as [Hpos | Hzero].
  - split; [intros _ | reflexivity].
    destruct (cover_count_pos _ _ Hpos) as (e & He & Hc).
    exists e. split; [assumption | now apply coversb_true].
  - split; [discriminate|].
    intros (e & He & Hc).
    pose proof (cover_count_In _ e i He (proj2 (coversb_true e i) Hc)). lia.
Qed.

(** *** free on a well-formed manager *)

Lemma cover_count_two (l : list extent) (a b : extent) (i : Z) :
  In a l -> In b l -> a <> b ->
  coversb a i = true -> coversb b i = true -> 2 <= cover_count l i.
Proof.
  induction l as [|x l IH]; intros Ha Hb Hab Ca Cb; [destruct Ha|].
  cbn [cover_count]. pose proof (cover_count_nonneg l i).
  destruct Ha as [-> | Ha], Hb as [-> | Hb].
  - contradiction.
  - rewrite Ca. pose proof (cover_count_In l b i Hb Cb). lia.
  - rewrite Cb. pose proof (cover_count_In l a i Ha Ca). lia.
  - specialize (IH Ha Hb Hab Ca Cb). destruct (coversb x i); lia.
Qed.

(** The partition scan takes out the first partition starting at [s]. *)
Lemma remove_partition_split (ps : list extent) (s len : Z) :
  In (s, len) ps ->
  (forall q, In q ps -> fst q = s -> q = (s, len)) ->
  exists l1 l2,
    ps = l1 ++ (s, len) :: l2 /\ remove_partition ps s = (len, l1 ++ l2).
Proof.
  induction ps as [|p ps IH]; intros Hin Huniq; [destruct Hin|].
  cbn [remove_partition].
  destruct (Z.eqb_spec (fst p) s) as [E | E].
  - rewrite (Huniq p (or_introl eq_refl) E). exists [], ps. split; reflexivity.
  - destruct Hin as [-> | Hin]; [exfalso; apply E; reflexivity|].
    destruct (IH Hin (fun q Hq => Huniq q (or_intror Hq)))
      as (l1 & l2 & -> & Hr).
    rewrite Hr. exists (p :: l1), l2. split; reflexivity.
Qed.

Lemma wf_partition_start (m : MemoryManager) (s len : Z) :
  wf m -> In (s, len) (partitions m) ->
  forall q, In q (partitions m) -> fst q = s -> q = (s, len).
Proof.
  intros W Hin q Hq Hs.
  pose proof (wf_partition_range m W) as R. rewrite Forall_forall in R.
  pose proof (R _ Hin) as R1. pose proof (R _ Hq) as R2. cbn [fst snd] in R1.
  destruct q as [qs ql]. cbn [fst snd] in *. subst qs.
  destruct (Z.eq_dec ql len) as [-> | Hne]; [reflexivity|]. exfalso.
  pose proof (cover_count_two (partitions m) (s, ql) (s, len) s Hq Hin
                ltac:(congruence)
                ltac:(apply coversb_true; cbn [fst snd]; lia)
                ltac:(apply coversb_true; cbn [fst snd]; lia)).
  pose proof (wf_tiling m W s ltac:(lia)).
  pose proof (cover_count_nonneg (holes m) s). lia.
Qed.

(** The manager left when the partition [(s, len)] is taken out, its flags
    are cleared and the holes become a separated vector covering the freed
    words as well. *)
Lemma freed_wf (m : MemoryManager) (s len : Z) (l1 l2 H' : list extent)
    (bm' : list Z) :
  wf m -> partitions m = l1 ++ (s, len) :: l2 ->
  separated H' ->
  Forall (fun h => 0 <= fst h /\ 1 <= snd h /\ fst h + snd h <= memSize m) H' ->
  (forall i, cover_count H' i
             = cover_count (holes m) i + (if coversb (s, len) i then 1 else 0)) ->
  Vec.fill (bitmap m) s len 0 = Returns bm' ->
  wf (mkMemoryManager (memory m) H' (l1 ++ l2) bm' (wordSize m) (memSize m)
        (allocator m)).
Proof.
  intros W Hps Hsep Hrange Hcnt Hfill.
  destruct W as [Hws Hmem Hreach Hsize _ _ Rp T Hbs Hb].
  rewrite Hps in *.
  pose proof Rp as Rp'. apply Forall_app in Rp' as [R1 R2].
  inversion R2 as [|x l HR R2']; subst x l. cbn [fst snd] in HR.
  assert (Hc : forall i, cover_count (l1 ++ l2) i
                         = cover_count (l1 ++ (s, len) :: l2) i
                           - (if coversb (s, len) i then 1 else 0)).
  { intros i. rewrite !cover_count_app. cbn [cover_count]. lia. }
  constructor; cbn [memory holes partitions bitmap wordSize memSize];
    try assumption.
  - apply Forall_app. split; assumption.
  - intros i Hi. rewrite Hcnt, Hc. specialize (T i Hi). lia.
  - rewrite (fill_size _ _ _ _ _ Hfill). assumption.
  - intros i Hi. rewrite (fill_size _ _ _ _ _ Hfill) in Hi.
    rewrite (fill_rd _ _ _ _ _ i Hfill Hi), (Hb i Hi), Hc.
    unfold coversb. cbn [fst snd].
    destruct (Z.leb_spec s i), (Z.ltb_spec i (s + len)); cbn [andb];
      rewrite ?Z.sub_0_r; try reflexivity.
    assert (Hi' : 0 <= i < memSize m) by lia.
    specialize (T i Hi').
    pose proof (cover_count_nonneg (holes m) i).
    pose proof (cover_count_In (l1 ++ (s, len) :: l2) (s, len) i
                  ltac:(apply in_or_app; right; now left)
                  ltac:(apply coversb_true; cbn [fst snd]; lia)).
    destruct (Z.ltb_spec 0 (cover_count (l1 ++ (s, len) :: l2) i - 1));
      [lia | reflexivity].
Qed.

(** The holes of a separated vector that keep clear of the words
    [[s, s + len)] split into those below and those above. *)
Lemma holes_split (s len : Z) (l : list extent) :
  separated l ->
  Forall (fun h => 1 <= snd h) l ->
  (forall h, In h l -> fst h + snd h <= s \/ s + len <= fst h) ->
  exists pre post,
    l = pre ++ post /\
    (forall a, In a pre -> fst a + snd a <= s) /\
    (forall b, In b post -> s + len <= fst b).
Proof.
  induction 1 as [|x l Hx Hl IH]; intros Hlen Hclear.
  - exists [], []. split; [reflexivity|]. split; intros a [].
  - inversion Hlen as [|x' l' Hx1 Hl1]; subst.
    destruct (Z.le_gt_cases (s + len) (fst x)) as [Habove | Hbelow].
    + exists [], (x :: l). split; [reflexivity|]. split; [intros a []|].
      intros b [<- | Hb]; [assumption|]. specialize (Hx b Hb). lia.
    + destruct (IH Hl1 (fun h Hh => Hclear h (or_intror Hh)))
        as (pre & post & -> & Hpre & Hpost).
      exists (x :: pre), post. split; [reflexivity|]. split; [|assumption].
      intros a [<- | Ha]; [|now apply Hpre].
      destruct (Hclear x (or_introl eq_refl)); lia.
Qed.

Lemma find_hole (P : extent -> bool) (l : list extent) :
  (exists x, In x l /\ P x = true) \/ (forall x, In x l -> P x = false).
Proof.
  induction l as [|y l IH].
  - right. intros x [].
  - destruct (P y) eqn:E.
    + left. exists y. split; [now left | assumption].
    + destruct IH as [(x & Hx & Px) | Hnone].
      * left. exists x. split; [now right | assumption].
      * right. intros x [<- | Hx]; [assumption | now apply Hnone].
Qed.

Lemma coalesce_back_step (h : extent) (hs : list extent)
    (i wordOffset length : Z) (combine : Z * Z) (erase0 erase1 : Z) :
  u32 (fst h + snd h) = wordOffset ->
  fst h <> u32 (fst h + u32 (snd h + length)) ->
  coalesce (h :: hs) i wordOffset length combine erase0 erase1
  = coalesce hs (i + 1) wordOffset length (fst h, u32 (snd h + length)) i
      erase1.
Proof.
  intros H1 H2. cbn [coalesce]. rewrite H1, Z.eqb_refl. cbn [fst snd].
  destruct (Z.eqb_spec (fst h) (u32 (fst h + u32 (snd h + length))));
    [contradiction | reflexivity].
Qed.

Lemma coalesce_forward_step (h : extent) (hs : list extent)
    (i wordOffset length : Z) (combine : Z * Z) (erase0 erase1 : Z) :
  u32 (fst h + snd h) <> wordOffset ->
  fst h = u32 (fst combine + snd combine) ->
  coalesce (h :: hs) i wordOffset length combine erase0 erase1
  = ((fst combine, snd combine + snd h), erase0, i).
Proof.
  intros H1 H2. cbn [coalesce].
  destruct (Z.eqb_spec (u32 (fst h + snd h)) wordOffset); [contradiction|].
  rewrite <- H2, Z.eqb_refl. reflexivity.
Qed.

(** [free] of a live partition's pointer when at most one of its two sides
    touches a hole. *)
Lemma free_keeps_wf (m : MemoryManager) (s len : Z) :
  wf m -> In (s, len) (partitions m) ->
  (forall a, In a (holes m) -> fst a + snd a <> s) \/
  (forall b, In b (holes m) -> fst b <> s + len) ->
  exists m2 l1 l2,
    free (Some (s * wordSize m)) m = Returns m2 /\ wf m2 /\
    partitions m = l1 ++ (s, len) :: l2 /\ partitions m2 = l1 ++ l2 /\
    forall i, cover_count (holes m2) i
              = cover_count (holes m) i + (if coversb (s, len) i then 1 else 0).
Proof.
  intros W Hin Hside.
  pose proof W as [Hws Hmem Hreach Hsize Hsep Rh Rp T Hbs Hb].
  pose proof Rp as Rp'. rewrite Forall_forall in Rp'.
  pose proof (Rp' _ Hin) as Rsl. cbn [fst snd] in Rsl.
  pose proof Rh as Rh'. rewrite Forall_forall in Rh'.
  assert (Hclear : forall h, In h (holes m) ->
                     fst h + snd h <= s \/ s + len <= fst h).
  { intros h Hh. destruct (wf_disjoint m h (s, len) W Hh Hin) as [H | H];
      cbn [fst snd] in H; [now left | now right]. }
  destruct (remove_partition_split (partitions m) s len Hin
              (wf_partition_start m s len W Hin)) as (l1 & l2 & Hps & Hrem).
  destruct (fill_in_range (bitmap m) s len 0) as (bm' & Hfill & _);
    [lia | lia | lia |].
  assert (Hgoal : forall H',
             separated H' ->
             Forall (fun h => 0 <= fst h /\ 1 <= snd h
                              /\ fst h + snd h <= memSize m) H' ->
             (forall i, cover_count H' i
                        = cover_count (holes m) i
                          + (if coversb (s, len) i then 1 else 0)) ->
             free (Some (s * wordSize m)) m
             = Returns (mkMemoryManager (memory m) H' (l1 ++ l2) bm'
                          (wordSize m) (memSize m) (allocator m)) ->
             exists m2 l1 l2,
               free (Some (s * wordSize m)) m = Returns m2 /\ wf m2 /\
               partitions m = l1 ++ (s, len) :: l2 /\
               partitions m2 = l1 ++ l2 /\
               forall i, cover_count (holes m2) i
                         = cover_count (holes m) i
                           + (if coversb (s, len) i then 1 else 0)).
  { intros H' S' R' C' E. eexists. exists l1, l2.
    split; [exact E|]. split; [now apply (freed_wf m s len l1 l2 H' bm')|].
    split; [assumption|]. split; [reflexivity | exact C']. }
  assert (Hfree : forall combine erase0 erase1 holes1 holes2,
             coalesce (holes m) 0 s len (s, len) (-1) (-1)
             = (combine, erase0, erase1) ->
             (if negb (erase0 =? -1) then Vec.erase (holes m) erase0
              else Returns (holes m)) = Returns holes1 ->
             (if negb (erase1 =? -1) then Vec.erase holes1 erase1
              else Returns holes1) = Returns holes2 ->
             free (Some (s * wordSize m)) m
             = Returns (mkMemoryManager (memory m)
                          (sort (Vec.push_back holes2
                                   (u32 (fst combine), u32 (snd combine))))
                          (l1 ++ l2) bm' (wordSize m) (memSize m)
                          (allocator m))).
  { intros combine erase0 erase1 holes1 holes2 Hc H1 H2. unfold free.
    rewrite find_offset_word by (try assumption; lia). cbn [bind].
    rewrite Hrem, Hc, H1. cbn [bind]. rewrite H2. cbn [bind].
    rewrite Hfill. reflexivity. }
  destruct (find_hole (fun h => fst h + snd h =? s) (holes m))
    as [(a & Ha & Pa) | Nb];
    destruct (find_hole (fun h => fst h =? s + len) (holes m))
      as [(b & Hb' & Pb) | Nf].
  - (* a hole on both sides is excluded *)
    exfalso. apply Z.eqb_eq in Pa, Pb.
    destruct Hside as [H | H]; [apply (H a Ha Pa) | apply (H b Hb' Pb)].
  - (* a hole below only: it grows over the freed words *)
    apply Z.eqb_eq in Pa.
    assert (Nf' : forall x, In x (holes m) -> fst x <> s + len).
    { intros x Hx. specialize (Nf x Hx). now apply Z.eqb_neq in Nf. }
    destruct (in_split _ _ Ha) as (pre & post & Hholes).
    rewrite Hholes in *.
    assert (Hsep' : separated (pre ++ [a] ++ post)) by exact Hsep.
    apply separated_app_iff in Hsep' as (Spre & Sap & Cross).
    apply (separated_app_iff [a] post) in Sap as (_ & Spost & Cap).
    pose proof (Rh' a ltac:(apply in_or_app; right; now left)) as Ra.
    assert (Rpre : forall x, In x pre ->
                     0 <= fst x /\ 1 <= snd x /\ fst x + snd x <= memSize m)
      by (intros x Hx; apply Rh', in_or_app; now left).
    assert (Rpost : forall x, In x post ->
                      0 <= fst x /\ 1 <= snd x /\ fst x + snd x <= memSize m)
      by (intros x Hx; apply Rh', in_or_app; right; now right).
    assert (Hpost : forall x, In x post -> s + len < fst x).
    { intros x Hx. specialize (Cap a x (or_introl eq_refl) Hx).
      specialize (Rpost x Hx).
      assert (Hx' : In x (pre ++ a :: post)) by (apply in_or_app; right; now right).
      specialize (Nf' x Hx'). destruct (Hclear x Hx'); lia. }
    apply (Hgoal (pre ++ (fst a, snd a + len) :: post)).
    + apply separated_app_iff. split; [assumption|]. split.
      * constructor; [|assumption]. intros y Hy. cbn [fst snd].
        specialize (Hpost y Hy). lia.
      * intros x y Hx [<- | Hy]; [|apply Cross; [assumption | now right]].
        cbn [fst]. apply Cross; [assumption | now left].
    + apply Forall_app. split; [now apply Forall_forall|].
      constructor; [cbn [fst snd]; lia | now apply Forall_forall].
    + intros i. rewrite !cover_count_app. cbn [cover_count].
      cases_coversb; lia.
    + rewrite (Hfree (fst a, snd a + len) (Vec.size pre) (-1) (pre ++ post)
                 (pre ++ post)).
      * rewrite !u32_small by (cbn [fst snd]; lia).
        rewrite sort_push_back; [reflexivity|].
        apply separated_increasing.
        -- apply Forall_app. split.
           ++ apply Forall_forall. intros x Hx. now apply Rpre.
           ++ constructor; [cbn [snd]; lia|].
              apply Forall_forall. intros x Hx. now apply Rpost.
        -- apply separated_app_iff. split; [assumption|]. split.
           ++ constructor; [|assumption]. intros y Hy. cbn [fst snd].
              specialize (Hpost y Hy). lia.
           ++ intros x y Hx [<- | Hy]; [|apply Cross; [assumption | now right]].
              cbn [fst]. apply Cross; [assumption | now left].
      * rewrite coalesce_skip.
        -- rewrite coalesce_back_step.
           ++ rewrite coalesce_untouched.
              ** rewrite (u32_small (snd a + len)) by lia.
                 now rewrite Z.add_0_l.
              ** cbn [fst snd]. intros x Hx.
                 specialize (Cap a x (or_introl eq_refl) Hx).
                 specialize (Rpost x Hx). specialize (Hpost x Hx).
                 rewrite (u32_small (snd a + len)) by lia.
                 rewrite !u32_small by lia. lia.
           ++ rewrite u32_small by lia. exact Pa.
           ++ rewrite (u32_small (snd a + len)) by lia.
              rewrite !u32_small by lia. lia.
        -- cbn [fst snd]. intros x Hx.
           specialize (Cross x a Hx (or_introl eq_refl)).
           specialize (Rpre x Hx). rewrite !u32_small by lia. lia.
      * replace (Vec.size pre =? -1) with false
          by (symmetry; apply Z.eqb_neq; unfold Vec.size; lia).
        cbn [negb]. apply erase_app.
      * reflexivity.
  - (* a hole above only: it grows down over the freed words *)
    apply Z.eqb_eq in Pb.
    assert (Nb' : forall x, In x (holes m) -> fst x + snd x <> s).
    { intros x Hx. specialize (Nb x Hx). now apply Z.eqb_neq in Nb. }
    destruct (in_split _ _ Hb') as (pre & post & Hholes).
    rewrite Hholes in *.
    assert (Hsep' : separated (pre ++ [b] ++ post)) by exact Hsep.
    apply separated_app_iff in Hsep' as (Spre & Sbp & Cross).
    apply (separated_app_iff [b] post) in Sbp as (_ & Spost & Cbp).
    pose proof (Rh' b ltac:(apply in_or_app; right; now left)) as Rb.
    assert (Rpre : forall x, In x pre ->
                     0 <= fst x /\ 1 <= snd x /\ fst x + snd x <= memSize m)
      by (intros x Hx; apply Rh', in_or_app; now left).
    assert (Rpost : forall x, In x post ->
                      0 <= fst x /\ 1 <= snd x /\ fst x + snd x <= memSize m)
      by (intros x Hx; apply Rh', in_or_app; right; now right).
    assert (Hpre : forall x, In x pre -> fst x + snd x < s).
    { intros x Hx. specialize (Cross x b Hx (or_introl eq_refl)).
      specialize (Rpre x Hx).
      assert (Hx' : In x (pre ++ b :: post)) by (apply in_or_app; now left).
      specialize (Nb' x Hx'). destruct (Hclear x Hx'); lia. }
    apply (Hgoal (pre ++ (s, len + snd b) :: post)).
    + apply separated_app_iff. split; [assumption|]. split.
      * constructor; [|assumption]. intros y Hy. cbn [fst snd].
        specialize (Cbp b y (or_introl eq_refl) Hy). lia.
      * intros x y Hx [<- | Hy]; [|apply Cross; [assumption | now right]].
        cbn [fst]. now apply Hpre.
    + apply Forall_app. split; [now apply Forall_forall|].
      constructor; [cbn [fst snd]; lia | now apply Forall_forall].
    + intros i. rewrite !cover_count_app. cbn [cover_count].
      cases_coversb; lia.
    + rewrite (Hfree (s, len + snd b) (-1) (Vec.size pre) (pre ++ b :: post)
                 (pre ++ post)).
      * rewrite !u32_small by (cbn [fst snd]; lia).
        rewrite sort_push_back; [reflexivity|].
        apply separated_increasing.
        -- apply Forall_app. split.
           ++ apply Forall_forall. intros x Hx. now apply Rpre.
           ++ constructor; [cbn [snd]; lia|].
              apply Forall_forall. intros x Hx. now apply Rpost.
        -- apply separated_app_iff. split; [assumption|]. split.
           ++ constructor; [|assumption]. intros y Hy. cbn [fst snd].
              specialize (Cbp b y (or_introl eq_refl) Hy). lia.
           ++ intros x y Hx [<- | Hy]; [|apply Cross; [assumption | now right]].
              cbn [fst]. now apply Hpre.
      * rewrite coalesce_skip.
        -- rewrite coalesce_forward_step.
           ++ cbn [fst snd]. now rewrite Z.add_0_l.
           ++ rewrite u32_small by lia. lia.
           ++ cbn [fst snd]. rewrite u32_small by lia. exact Pb.
        -- cbn [fst snd]. intros x Hx.
           specialize (Cross x b Hx (or_introl eq_refl)).
           specialize (Rpre x Hx). specialize (Hpre x Hx).
           rewrite !u32_small by lia. lia.
      * reflexivity.
      * replace (Vec.size pre =? -1) with false
          by (symmetry; apply Z.eqb_neq; unfold Vec.size; lia).
        cbn [negb]. apply erase_app.
  - (* no hole on either side: the freed words become a hole of their own *)
    assert (Nb' : forall x, In x (holes m) -> fst x + snd x <> s).
    { intros x Hx. specialize (Nb x Hx). now apply Z.eqb_neq in Nb. }
    assert (Nf' : forall x, In x (holes m) -> fst x <> s + len).
    { intros x Hx. specialize (Nf x Hx). now apply Z.eqb_neq in Nf. }
    destruct (holes_split s len (holes m) Hsep) as (pre & post & Hholes & Hpre & Hpost).
    { eapply Forall_impl; [|exact Rh]. cbn. intros x Hx. lia. }
    { exact Hclear. }
    rewrite Hholes in *.
    apply separated_app_iff in Hsep as (Spre & Spost & Cross).
    assert (Rpre : forall x, In x pre ->
                     0 <= fst x /\ 1 <= snd x /\ fst x + snd x <= memSize m)
      by (intros x Hx; apply Rh', in_or_app; now left).
    assert (Rpost : forall x, In x post ->
                      0 <= fst x /\ 1 <= snd x /\ fst x + snd x <= memSize m)
      by (intros x Hx; apply Rh', in_or_app; now right).
    assert (S' : separated (pre ++ (s, len) :: post)).
    { apply separated_app_iff. split; [assumption|]. split.
      - constructor; [|assumption]. intros y Hy. cbn [fst snd].
        specialize (Hpost y Hy).
        specialize (Nf' y ltac:(apply in_or_app; now right)). lia.
      - intros x y Hx [<- | Hy]; [|now apply Cross].
        cbn [fst]. specialize (Hpre x Hx).
        specialize (Nb' x ltac:(apply in_or_app; now left)). lia. }
    apply (Hgoal (pre ++ (s, len) :: post)).
    + exact S'.
    + apply Forall_app. split; [now apply Forall_forall|].
      constructor; [cbn [fst snd]; lia | now apply Forall_forall].
    + intros i. rewrite !cover_count_app. cbn [cover_count]. lia.
    + rewrite (Hfree (s, len) (-1) (-1) (pre ++ post) (pre ++ post)).
      * rewrite !u32_small by (cbn [fst snd]; lia).
        rewrite sort_push_back; [reflexivity|].
        apply separated_increasing; [|exact S'].
        apply Forall_app. split.
        -- apply Forall_forall. intros x Hx. now apply Rpre.
        -- constructor; [cbn [snd]; lia|].
           apply Forall_forall. intros x Hx. now apply Rpost.
      * apply coalesce_untouched. cbn [fst snd]. intros x Hx.
        specialize (Nb' x Hx). specialize (Nf' x Hx). specialize (Rh' x Hx).
        rewrite !u32_small by lia. lia.
      * reflexivity.
      * reflexivity.
Qed.

Lemma increasing_app_iff (l1 l2 : list extent) :
  increasing (l1 ++ l2) <->
  increasing l1 /\ increasing l2 /\
  (forall a b, In a l1 -> In b l2 -> fst a < fst b).
Proof.
  induction l1 as [|x l1 IH]; cbn [app].
  - split.
    + intros H. split; [constructor|]. split; [assumption|]. intros a b [].
    + tauto.
  - split.
    + intros H. inversion H as [|x' l' Hx Hl]; subst.
      apply IH in Hl as (H1 & H2 & H12).
      split; [|split].
      * constructor; [|assumption].
        intros y Hy. apply Hx, in_or_app. now left.
      * assumption.
      * intros a b [<- | Ha] Hb; [apply Hx, in_or_app; now right|].
        now apply H12.
    + intros (H1 & H2 & H12). inversion H1 as [|x' l' Hx Hl]; subst.
      constructor.
      * intros y Hy. apply in_app_or in Hy as [Hy | Hy];
          [now apply Hx | apply H12; [now left | assumption]].
      * apply IH. split; [assumption|]. split; [assumption|].
        intros a b Ha Hb. apply H12; [now right | assumption].
Qed.

Lemma increasing_one (x : extent) : increasing [x].
Proof. constructor; [intros y [] | constructor]. Qed.

(** X15. On a well-formed manager, [free] of the pointer of a live partition
    [(s, len)] with the hole [a] ending at [s] and the next hole [b] starting
    at [s + len]: when [b] is the last hole the second [erase] is given
    [end()], which is undefined; otherwise [free] returns with the merged
    hole in the place of [a], with [b] still in the vector and with the hole
    that followed [b] removed. *)
Theorem free_between_two_holes_keeps_upper (m : MemoryManager) (s len : Z)
    (a b : extent) (pre post : list extent) :
  wf m -> In (s, len) (partitions m) ->
  holes m = pre ++ a :: b :: post ->
  fst a + snd a = s -> fst b = s + len ->
  match post with
  | [] => free (Some (s * wordSize m)) m = Undefined
  | c :: post' =>
      exists m2,
        free (Some (s * wordSize m)) m = Returns m2 /\
        holes m2 = pre ++ (fst a, snd a + len + snd b) :: b :: post'
  end.
Proof.
  intros W Hin Hholes Pa Pb.
  pose proof W as [Hws Hmem Hreach Hsize Hsep Rh Rp T Hbs Hb].
  pose proof Rp as Rp'. rewrite Forall_forall in Rp'.
  pose proof (Rp' _ Hin) as Rsl. cbn [fst snd] in Rsl.
  pose proof Rh as Rh'. rewrite Forall_forall in Rh'.
  destruct (remove_partition_split (partitions m) s len Hin
              (wf_partition_start m s len W Hin)) as (l1 & l2 & Hps & Hrem).
  destruct (fill_in_range (bitmap m) s len 0) as (bm' & Hfill & _);
    [lia | lia | lia |].
  rewrite Hholes in *.
  assert (Hsep' : separated (pre ++ [a] ++ b :: post)) by exact Hsep.
  apply separated_app_iff in Hsep' as (Spre & Sap & Cross).
  pose proof (Rh' a ltac:(apply in_or_app; right; now left)) as Ra.
  pose proof (Rh' b ltac:(apply in_or_app; right; right; now left)) as Rb.
  assert (Rpre : forall x, In x pre ->
                   0 <= fst x /\ 1 <= snd x /\ fst x + snd x <= memSize m)
    by (intros x Hx; apply Rh', in_or_app; now left).
  assert (Hco : coalesce (pre ++ a :: b :: post) 0 s len (s, len) (-1) (-1)
                = ((fst a, snd a + len + snd b), Vec.size pre, Vec.size pre + 1)).
  { rewrite coalesce_skip.
    - rewrite coalesce_back_step.
      + rewrite coalesce_forward_step.
        * cbn [fst snd]. rewrite (u32_small (snd a + len)) by lia.
          now rewrite Z.add_0_l.
        * rewrite u32_small by lia. lia.
        * cbn [fst snd]. rewrite (u32_small (snd a + len)) by lia.
          rewrite u32_small by lia. lia.
      + rewrite u32_small by lia. exact Pa.
      + rewrite (u32_small (snd a + len)) by lia.
        rewrite u32_small by lia. lia.
    - cbn [fst snd]. intros x Hx.
      specialize (Cross x a Hx (or_introl eq_refl)).
      specialize (Rpre x Hx). rewrite !u32_small by lia. lia. }
  assert (Hpos0 : negb (Vec.size pre =? -1) = true).
  { apply negb_true_iff, Z.eqb_neq. unfold Vec.size. lia. }
  assert (Hpos1 : negb (Vec.size pre + 1 =? -1) = true).
  { apply negb_true_iff, Z.eqb_neq. unfold Vec.size. lia. }
  unfold free.
  rewrite find_offset_word by (try assumption; lia). cbn [bind].
  rewrite Hrem, Hholes, Hco.
  rewrite Hpos0, erase_app. cbn [bind]. rewrite Hpos1.
  destruct post as [|c post'].
  - (* the upper neighbour is the last hole: the second erase is at end() *)
    unfold Vec.erase.
    replace ((0 <=? Vec.size pre + 1)
             && (Vec.size pre + 1 <? Vec.size (pre ++ [b]))) with false;
      [reflexivity|].
    symmetry. apply andb_false_iff. right. apply Z.ltb_ge.
    unfold Vec.size. rewrite length_app. cbn [List.length]. lia.
  - (* otherwise the hole behind the upper neighbour is the one erased *)
    replace (pre ++ b :: c :: post') with ((pre ++ [b]) ++ c :: post')
      by (rewrite <- app_assoc; reflexivity).
    replace (Vec.size pre + 1) with (Vec.size (pre ++ [b]))
      by (unfold Vec.size; rewrite length_app; cbn [List.length]; lia).
    rewrite erase_app. cbn [bind]. rewrite Hfill. cbn [bind].
    eexists. split; [reflexivity|]. cbn [holes fst snd].
    rewrite !u32_small by lia.
    rewrite <- app_assoc. cbn [app].
    apply (sort_push_back pre (b :: post') (fst a, snd a + len + snd b)).
    assert (Hinc : increasing (pre ++ [a] ++ [b] ++ [c] ++ post')).
    { apply separated_increasing; [|exact Hsep].
      eapply Forall_impl; [|exact Rh]. cbn. intros x Hx. lia. }
    apply increasing_app_iff in Hinc as (Ipre & Irest & C1).
    apply increasing_app_iff in Irest as (_ & Irest & C2).
    apply increasing_app_iff in Irest as (_ & Irest & C3).
    apply increasing_app_iff in Irest as (_ & Ipost & C4).
    apply (increasing_app_iff pre). split; [assumption|]. split.
    + apply (increasing_app_iff [_]). split; [apply increasing_one|]. split.
      * apply (increasing_app_iff [b]). split; [apply increasing_one|].
        split; [assumption|].
        intros x y [<- | []] Hy. apply C3; [now left|].
        apply in_or_app. now right.
      * intros x y [<- | []] Hy. cbn [fst].
        apply (C2 a y (or_introl eq_refl)).
        destruct Hy as [<- | Hy]; [now left|].
        apply in_or_app. right. apply in_or_app. now right.
    + intros x y Hx Hy. destruct Hy as [<- | [<- | Hy]]; cbn [fst].
      * apply (C1 x a Hx). now left.
      * apply (C1 x b Hx). right. now left.
      * apply (C1 x y Hx). right. right. now right.
Qed.


(** ** Sessions that keep the manager well formed *)

Lemma allocate_null_unchanged (n : Z) (m m' : MemoryManager) :
  allocate n m = Returns (None, m') -> m' = m.
Proof.
  unfold allocate, getList.
  destruct ((n >? memSize m * wordSize m) || (n <? 0) || (memory m =? 0)).
  { intros E. now injection E as <-. }
  destruct (memory m =? 0); [discriminate|].
  destruct (allocator m _ _ =? -1).
  { intros E. now injection E as <-. }
  destruct (Vec.at_ (holes m) _) as [h| |]; cbn [bind]; try discriminate.
  destruct (if snd h =? _ then _ else _) as [holes'| |]; cbn [bind];
    try discriminate.
  destruct (Vec.fill (bitmap m) _ _ 1) as [bitmap'| |]; cbn [bind];
    try discriminate.
  destruct (_ <? memory m); discriminate.
Qed.


(** *** The example managers *)

Ltac each_of_16 i :=
  let H := fresh in
  assert (H : i = 0 \/ i = 1 \/ i = 2 \/ i = 3 \/ i = 4 \/ i = 5 \/ i = 6
              \/ i = 7 \/ i = 8 \/ i = 9 \/ i = 10 \/ i = 11 \/ i = 12
              \/ i = 13 \/ i = 14 \/ i = 15) by lia;
  repeat (destruct H as [-> | H]; [vm_compute; reflexivity|]);
  subst i; vm_compute; reflexivity.

Lemma pool_one_partition_reached :
  observe (session 4 10 [Allocate 8])
  = Returns ([Some 0], view pool_one_partition).
Proof. vm_compute. reflexivity. Qed.

Lemma pool_three_holes_reached :
  observe (session 1 10 [Allocate 2; Allocate 2; Allocate 2; Allocate 2;
                         Free 0; Free 2])
  = Returns ([Some 0; Some 2; Some 4; Some 6], view pool_three_holes).
Proof. vm_compute. reflexivity. Qed.

Lemma pool_one_partition_wf : wf pool_one_partition.
Proof.
  constructor; cbn [pool_one_partition memory holes partitions bitmap
                      wordSize memSize]; try lia.
  - apply separated_one.
  - repeat constructor; cbn [fst snd]; lia.
  - repeat constructor; cbn [fst snd]; lia.
  - intros i Hi. cbn [cover_count]. cases_coversb; lia.
  - vm_compute. discriminate.
  - intros i Hi. change (Vec.size _) with 16 in Hi. each_of_16 i.
Qed.

Lemma pool_three_holes_wf : wf pool_three_holes.
Proof.
  constructor; cbn [pool_three_holes memory holes partitions bitmap
                      wordSize memSize]; try lia.
  - repeat (constructor; [intros y Hy; cbn [In] in Hy;
                          repeat (destruct Hy as [<- | Hy]; [cbn; lia|]);
                          destruct Hy|]).
    constructor.
  - repeat constructor; cbn [fst snd]; lia.
  - repeat constructor; cbn [fst snd]; lia.
  - intros i Hi. cbn [cover_count]. cases_coversb; lia.
  - vm_compute. discriminate.
  - intros i Hi. change (Vec.size _) with 16 in Hi. each_of_16 i.
Qed.

(** ** The manager's invariants *)

(** X11. [initialize] with at least one word, on a manager whose word size
    is at least one byte and whose pool stays below 2^32 bytes, leaves a
    well-formed manager. *)
Theorem initialize_well_formed (n : Z) (m : MemoryManager) :
  1 <= n -> 1 <= wordSize m -> Z.min n 65535 * wordSize m < 4294967296 ->
  wf (initialize n m).
Proof. exact (initialize_wf n m). Qed.

Lemma initialize_well_formed_witness :
  wf (initialize 10 (construct 4 bestFit 0)).
Proof. apply initialize_well_formed; cbn; lia. Defined.

(** In a well-formed manager no hole ends where another starts, the
    holes are in ascending-start order, holes and partitions together tile
    the pool, bit [i] of the bitmap is 1 exactly when word [i] lies in a
    partition, and the padding flags behind the last word are 0. *)
Lemma wf_data_model (m : MemoryManager) :
  wf m ->
  non_adjacent (holes m) /\
  ascending (holes m) /\
  tiles (memSize m) (holes m) (partitions m) /\
  bitmap_faithful m /\
  (forall i, memSize m <= i < Vec.size (bitmap m) -> rd (bitmap m) i = 0).
Proof.
  intros W.
  split; [now apply wf_non_adjacent|]. split; [now apply wf_ascending|].
  split; [now apply wf_tiles|]. split; [now apply wf_bitmap_faithful|].
  intros i Hi. pose proof (wf_memSize m W).
  rewrite (wf_bitmap m W i) by lia.
  rewrite cover_count_zero; [reflexivity|].
  intros e He. apply coversb_false.
  pose proof (wf_partition_range m W) as R. rewrite Forall_forall in R.
  specialize (R e He). lia.
Qed.

(** X13. On a well-formed manager with [bestFit], a successful [allocate] of
    at least one word leaves a well-formed manager; the pointer returned is
    the first byte of word [s], where [s] is the start of a hole of the old
    state at least [sizeInBytes / wordSize] words long, and the partition
    [(s, sizeInBytes / wordSize)] is recorded. *)
Theorem allocate_keeps_well_formed (m m1 : MemoryManager) (n p : Z) :
  wf m -> allocator m = bestFit -> wordSize m <= n ->
  allocate n m = Returns (Some p, m1) ->
  wf m1 /\
  exists h,
    In h (holes m) /\ n / wordSize m <= snd h /\
    p = fst h * wordSize m /\
    In (fst h, n / wordSize m) (partitions m1).
Proof.
  intros W Hb Hn Ha. split; [exact (allocate_keeps_wf m m1 n p W Hb Hn Ha)|].
  destruct (allocate_shape m m1 n p (wf_clean m W) Hb Hn Ha)
    as (pre & h & post & bm1 & Hholes & Hw & Hp & _ & ->).
  exists h. split; [rewrite Hholes; apply in_or_app; right; now left|].
  split; [lia|]. split; [exact Hp|]. cbn [partitions].
  apply (proj2 (In_sort _ _)). unfold Vec.push_back.
  apply in_or_app. right. now left.
Qed.

Lemma allocate_keeps_well_formed_witness :
  exists p m1,
    allocate 8 (initialize 10 (construct 4 bestFit 0)) = Returns (Some p, m1) /\
    wf m1 /\
    exists h,
      In h (holes (initialize 10 (construct 4 bestFit 0))) /\
      8 / wordSize (initialize 10 (construct 4 bestFit 0)) <= snd h /\
      p = fst h * wordSize (initialize 10 (construct 4 bestFit 0)) /\
      In (fst h, 8 / wordSize (initialize 10 (construct 4 bestFit 0)))
        (partitions m1).
Proof.
  destruct (allocate 8 (initialize 10 (construct 4 bestFit 0)))
    as [[[p|] m1]| |] eqn:Ha.
  - exists p, m1. split; [reflexivity|].
    apply (allocate_keeps_well_formed
             (initialize 10 (construct 4 bestFit 0)) m1 8 p);
      [apply initialize_wf; cbn; lia | reflexivity | cbn; lia | exact Ha].
  - exfalso. vm_compute in Ha. discriminate.
  - exfalso. vm_compute in Ha. discriminate.
  - exfalso. vm_compute in Ha. discriminate.
Defined.

(** X14. On a well-formed manager, [free] of the pointer of a live partition
    [(s, len)] that does not have a hole on both of its sides returns and
    leaves a well-formed manager: that partition is taken out of the
    partition vector and its words, and no others, pass to the holes. *)
Theorem free_keeps_well_formed (m : MemoryManager) (s len : Z) :
  wf m -> In (s, len) (partitions m) ->
  (forall a, In a (holes m) -> fst a + snd a <> s) \/
  (forall b, In b (holes m) -> fst b <> s + len) ->
  exists m2 l1 l2,
    free (Some (s * wordSize m)) m = Returns m2 /\ wf m2 /\
    partitions m = l1 ++ (s, len) :: l2 /\ partitions m2 = l1 ++ l2 /\
    forall i, cover_count (holes m2) i
              = cover_count (holes m) i + (if coversb (s, len) i then 1 else 0).
Proof. exact (free_keeps_wf m s len). Qed.

Lemma free_keeps_well_formed_witness :
  exists m2 l1 l2,
    free (Some (0 * wordSize pool_one_partition)) pool_one_partition
    = Returns m2 /\ wf m2 /\
    partitions pool_one_partition = l1 ++ (0, 2) :: l2 /\
    partitions m2 = l1 ++ l2 /\
    forall i, cover_count (holes m2) i
              = cover_count (holes pool_one_partition) i
                + (if coversb (0, 2) i then 1 else 0).
Proof.
  apply (free_keeps_well_formed pool_one_partition 0 2).
  - exact pool_one_partition_wf.
  - left. reflexivity.
  - left. intros a [<- | []]. cbn. lia.
Defined.

Lemma free_between_two_holes_keeps_upper_witness :
  exists m2,
    free (Some (2 * wordSize pool_three_holes)) pool_three_holes = Returns m2 /\
    holes m2 = [] ++ (fst (0, 2), snd (0, 2) + 2 + snd (4, 2)) :: (4, 2) :: [].
Proof.
  apply (free_between_two_holes_keeps_upper pool_three_holes 2 2 (0, 2) (4, 2)
           [] [(8, 2)]).
  - exact pool_three_holes_wf.
  - left. reflexivity.
  - reflexivity.
  - reflexivity.
  - reflexivity.
Defined.

(** X16. On a clean manager with [bestFit], a successful [allocate] of at
    least one word followed at once by [free] of the pointer it returned
    leaves the hole vector exactly as it was before the allocation. *)
Theorem allocate_then_free_restores_holes (m m1 : MemoryManager) (n p : Z) :
  clean m -> allocator m = bestFit -> wordSize m <= n ->
  allocate n m = Returns (Some p, m1) ->
  exists m2, free (Some p) m1 = Returns m2 /\ holes m2 = holes m.
Proof. exact (allocate_free_round_trip m m1 n p). Qed.

Lemma allocate_then_free_restores_holes_witness :
  exists p m1 m2,
    allocate 8 (initialize 10 (construct 4 bestFit 0)) = Returns (Some p, m1) /\
    free (Some p) m1 = Returns m2 /\
    holes m2 = holes (initialize 10 (construct 4 bestFit 0)).
Proof.
  destruct (allocate 8 (initialize 10 (construct 4 bestFit 0)))
    as [[[p|] m1]| |] eqn:Ha.
  - destruct (allocate_then_free_restores_holes
                (initialize 10 (construct 4 bestFit 0)) m1 8 p)
      as (m2 & Hf & Hh);
      [apply initialize_clean; lia | reflexivity | cbn; lia | exact Ha |].
    exists p, m1, m2. split; [reflexivity|]. split; assumption.
  - exfalso. vm_compute in Ha. discriminate.
  - exfalso. vm_compute in Ha. discriminate.
  - exfalso. vm_compute in Ha. discriminate.
Defined.

(** *** What getList and getBitmap report along tame sessions *)











(** X18. On a well-formed manager, [free] of the pointer to a word [s] of the
    pool at which no partition starts and at which no hole starts or ends
    returns with the partitions and the bitmap as they were and with the
    empty hole [(s, 0)] added to the hole vector. *)
Theorem free_of_unowned_word_adds_empty_hole (m : MemoryManager) (s : Z) :
  wf m -> 0 <= s < memSize m ->
  (forall p, In p (partitions m) -> fst p <> s) ->
  (forall h, In h (holes m) -> fst h <> s /\ fst h + snd h <> s) ->
  exists m',
    free (Some (s * wordSize m)) m = Returns m' /\
    holes m' = sort (Vec.push_back (holes m) (s, 0)) /\
    partitions m' = partitions m /\
    bitmap m' = bitmap m.
Proof.
  intros W Hs Hp Hh.
  pose proof W as [Hws Hmem Hreach Hsize Hsep Rh Rp T Hbs Hb].
  destruct (free_unmatched_pushes_empty_hole (Some (s * wordSize m)) m s)
    as (m' & Hf & Hholes & Hparts & Hbm).
  - now apply find_offset_word.
  - exact Hp.
  - intros h Hin. destruct (Hh h Hin) as [H1 H2].
    rewrite Forall_forall in Rh. specialize (Rh h Hin).
    rewrite !u32_small by lia. lia.
  - lia.
  - exists m'. split; [exact Hf|]. split; [|split; assumption].
    rewrite Hholes. rewrite (u32_small s) by lia. reflexivity.
Qed.

Lemma free_of_unowned_word_adds_empty_hole_witness :
  exists m',
    free (Some (1 * wordSize pool_one_partition)) pool_one_partition
    = Returns m' /\
    holes m' = sort (Vec.push_back (holes pool_one_partition) (1, 0)) /\
    partitions m' = partitions pool_one_partition /\
    bitmap m' = bitmap pool_one_partition.
Proof.
  apply (free_of_unowned_word_adds_empty_hole pool_one_partition 1).
  - exact pool_one_partition_wf.
  - cbn. lia.
  - intros p [<- | []]. cbn. lia.
  - intros h [<- | []]. cbn. lia.
Defined.

(** X19. Whenever [allocate] returns [nullptr] the manager is exactly as it
    was: a request that is rejected, or for which the allocator finds no
    hole, changes nothing. *)
Theorem allocate_failure_changes_nothing (n : Z) (m m' : MemoryManager) :
  allocate n m = Returns (None, m') -> m' = m.
Proof. exact (allocate_null_unchanged n m m'). Qed.

Lemma allocate_failure_changes_nothing_witness :
  exists m',
    allocate 100 (initialize 10 (construct 4 bestFit 0)) = Returns (None, m') /\
    m' = initialize 10 (construct 4 bestFit 0).
Proof.
  assert (Ha : allocate 100 (initialize 10 (construct 4 bestFit 0))
               = Returns (None, initialize 10 (construct 4 bestFit 0))).
  { apply allocate_rejects. right. cbn. lia. }
  exists (initialize 10 (construct 4 bestFit 0)). split; [exact Ha|].
  exact (allocate_failure_changes_nothing 100 _ _ Ha).
Defined.

(** X20. After every successful [allocate] the partition vector is in
    ascending-start order: sorting it is the last thing [allocate] does to
    it. *)
Theorem allocate_partitions_ascending (n p : Z) (m m1 : MemoryManager) :
  allocate n m = Returns (Some p, m1) -> ascending (partitions m1).
Proof.
  intros Ha. destruct (allocate_partition_words n m m1 p Ha) as [Hp _].
  rewrite Hp. apply starts_sorted_ascending, sort_starts_sorted.
Qed.

Lemma allocate_partitions_ascending_witness :
  exists p m1,
    allocate 2 pool_three_holes = Returns (Some p, m1) /\
    partitions m1 = [(0, 2); (2, 2); (6, 2)] /\
    ascending (partitions m1).
Proof.
  destruct (allocate 2 pool_three_holes) as [[[p|] m1]| |] eqn:Ha.
  - exists p, m1. split; [reflexivity|]. split.
    + pose proof (f_equal (fun o => match o with
                                    | Returns r => partitions (snd r)
                                    | _ => []
                                    end) Ha) as Hp.
      vm_compute in Hp. symmetry. exact Hp.
    + exact (allocate_partitions_ascending 2 p _ m1 Ha).
  - exfalso. vm_compute in Ha. discriminate.
  - exfalso. vm_compute in Ha. discriminate.
  - exfalso. vm_compute in Ha. discriminate.
Defined.

(** X21. Whatever the manager and the request, a successful [allocate]
    records one new partition of [sizeInBytes / wordSize] words, the quotient
    rounded down, at the offset its allocator returned for that many words,
    and returns the pointer at that offset times the word size. *)
Theorem allocate_records_quotient_words (n : Z) (m m' : MemoryManager) (p : Z) :
  allocate n m = Returns (Some p, m') ->
  partitions m'
  = sort (Vec.push_back (partitions m)
            (u32 (allocator m (u32 (n / wordSize m)) (hole_list (holes m))),
             u32 (n / wordSize m))) /\
  p = u32 (allocator m (u32 (n / wordSize m)) (hole_list (holes m))
           * wordSize m).
Proof. exact (allocate_partition_words n m m' p). Qed.

Lemma allocate_records_quotient_words_witness :
  exists p m',
    allocate 7 (initialize 10 (construct 4 bestFit 0)) = Returns (Some p, m') /\
    partitions m' = [(0, 1)] /\ p = 0.
Proof.
  destruct (allocate 7 (initialize 10 (construct 4 bestFit 0)))
    as [[[p|] m']| |] eqn:Ha.
  - exists p, m'. split; [reflexivity|].
    exact (allocate_records_quotient_words 7 _ m' p Ha).
  - exfalso. vm_compute in Ha. discriminate.
  - exfalso. vm_compute in Ha. discriminate.
  - exfalso. vm_compute in Ha. discriminate.
Defined.
